(** * ironic.nova.volume_driver: iSCSI export management for bare-metal nodes

    A shallow embedding of [ironic/nova/volume_driver.py] and the
    properties of its status parser, identifier allocator and export
    lifecycle (attach / detach / volume connector).

    Python 2 byte strings are Rocq [string]s, Python integers are [Z],
    dictionaries are [gmap]s, and the calls that leave the module
    ([utils.execute], the [db] lookups, the transport sub-drivers and the
    initiator discovery) are fields of an environment record that thread
    an abstract world; the module's own code logs every such call in a
    trace. *)

From Stdlib Require Import ZArith String Ascii List DecimalString DecimalPos
  Bool Lia.
From stdpp Require Import base strings gmap list.

Open Scope string_scope.
Open Scope Z_scope.

(** stdpp blocks the unfolding of string concatenation; the proofs below
    compute with it. *)
#[global] Arguments String.append !s1 s2 : simpl nomatch.

(* ===================================================================== *)
(** ** Python string primitives used by the module *)
(* ===================================================================== *)

Module PyStr.

Definition newline : ascii := "010"%char.

Definition slash : ascii := "/"%char.

Definition hyphen : ascii := "-"%char.

Definition space : ascii := " "%char.

Definition colon : ascii := ":"%char.

(** [str(n)] for an integer. *)
Definition str_of_int (z : Z) : string :=
  NilZero.string_of_int (Z.to_int z).

(** [c in s] for a one-character [c]. *)
Fixpoint contains (c : ascii) (s : string) : bool :=
  match s with
  | EmptyString => false
  | String d s' => Ascii.eqb d c || contains c s'
  end.

(** [s.startswith(p)], returning what follows the prefix. *)
Fixpoint strip_prefix (p s : string) : option string :=
  match p, s with
  | EmptyString, _ => Some s
  | String a p', String b s' =>
      if Ascii.eqb a b then strip_prefix p' s' else None
  | String _ _, EmptyString => None
  end.

Definition startswith (p s : string) : bool :=
  match strip_prefix p s with Some _ => true | None => false end.

(** [s.split('\n')]: the first piece and the later pieces; the result of
    [split] is never empty. *)
Fixpoint split_pieces (sep : ascii) (s : string) : string * list string :=
  match s with
  | EmptyString => (EmptyString, [])
  | String c s' =>
      let '(l, ls) := split_pieces sep s' in
      if Ascii.eqb c sep then (EmptyString, l :: ls)
      else (String c l, ls)
  end.

Definition split (sep : ascii) (s : string) : list string :=
  let '(l, ls) := split_pieces sep s in l :: ls.

(** [s.replace(a, b)] for one-character [a] and [b]. *)
Fixpoint replace (a b : ascii) (s : string) : string :=
  match s with
  | EmptyString => EmptyString
  | String c s' => String (if Ascii.eqb c a then b else c) (replace a b s')
  end.

(** [s.lstrip(c)], [s.rstrip(c)] and [s.strip(c)] for a one-character
    [c]. *)
Fixpoint lstrip (c : ascii) (s : string) : string :=
  match s with
  | EmptyString => EmptyString
  | String d s' => if Ascii.eqb d c then lstrip c s' else s
  end.

Fixpoint rstrip (c : ascii) (s : string) : string :=
  match s with
  | EmptyString => EmptyString
  | String d s' =>
      match rstrip c s' with
      | EmptyString => if Ascii.eqb d c then EmptyString
                       else String d EmptyString
      | r => String d r
      end
  end.

Definition strip (c : ascii) (s : string) : string :=
  rstrip c (lstrip c s).

(** [s.rpartition(sep)[2]]: what follows the last separator, the whole
    string when there is none. *)
Fixpoint after_last (sep : ascii) (s : string) : option string :=
  match s with
  | EmptyString => None
  | String c s' =>
      match after_last sep s' with
      | Some t => Some t
      | None => if Ascii.eqb c sep then Some s' else None
      end
  end.

Definition rpartition_tail (sep : ascii) (s : string) : string :=
  match after_last sep s with Some t => t | None => s end.

(** Decimal digits, [\d] on a byte string. *)
Definition is_digit (c : ascii) : bool :=
  let n := nat_of_ascii c in (48 <=? n)%nat && (n <=? 57)%nat.

Definition digit_value (c : ascii) : Z :=
  Z.of_nat (nat_of_ascii c) - 48.

(** The longest run of digits at the head of [s], and what follows. *)
Fixpoint span_digits (s : string) : string * string :=
  match s with
  | EmptyString => (EmptyString, EmptyString)
  | String c s' =>
      if is_digit c then
        let '(ds, r) := span_digits s' in (String c ds, r)
      else (EmptyString, s)
  end.

(** [int(ds)] for a string of decimal digits. *)
Fixpoint int_acc (acc : Z) (ds : string) : Z :=
  match ds with
  | EmptyString => acc
  | String c ds' => int_acc (10 * acc + digit_value c) ds'
  end.

Definition int_of_digits (ds : string) : Z := int_acc 0 ds.

(** [s[0]] and [s[-1]], when [s] is not empty. *)
Definition head_char (s : string) : option ascii :=
  match s with
  | EmptyString => None
  | String c _ => Some c
  end.

Fixpoint last_char (s : string) : option ascii :=
  match s with
  | EmptyString => None
  | String c EmptyString => Some c
  | String _ s' => last_char s'
  end.

(** [c * n]. *)
Fixpoint repeat_char (c : ascii) (n : nat) : string :=
  match n with
  | O => EmptyString
  | S n' => String c (repeat_char c n')
  end.

(** Every character of [s] is a decimal digit. *)
Fixpoint all_digits (s : string) : bool :=
  match s with
  | EmptyString => true
  | String c s' => is_digit c && all_digits s'
  end.

End PyStr.

(* ===================================================================== *)
(** ** The regular expressions of the status parser *)
(* ===================================================================== *)

Module Re.

Import PyStr.

(** [re.search(r'^Target (\d+):', line)]: group 1 and what follows the
    colon.  [line] holds no newline, so [^] is the start of the line;
    [\d+] takes the whole run of digits, shorter runs cannot be followed
    by the colon. *)
Definition search_target (line : string) : option (string * string) :=
  match strip_prefix "Target " line with
  | Some r =>
      match span_digits r with
      | (EmptyString, _) => None
      | (ds, String c rest) =>
          if Ascii.eqb c colon then Some (ds, rest) else None
      | (_, EmptyString) => None
      end
  | None => None
  end.

(** [ *] followed by the escaped literal: the greedy star first takes
    one more space and backtracks to the literal when that fails. *)
Fixpoint spaces_then (lit r : string) : bool :=
  match r with
  | String c r' =>
      if Ascii.eqb c space then spaces_then lit r' || startswith lit r
      else startswith lit r
  | EmptyString => startswith lit r
  end.

(** [re.search(r'^Target (\d+): *' + re.escape(iqn), line)]: group 1. *)
Definition search_target_named (iqn line : string) : option string :=
  match search_target line with
  | Some (ds, rest) => if spaces_then iqn rest then Some ds else None
  | None => None
  end.

(** [re.search] for the literal [Backing store path: ] followed by a
    greedy group of any characters up to the end of the line: group 1 is
    what follows the leftmost occurrence of the literal. *)
Fixpoint search_after (key s : string) : option string :=
  match strip_prefix key s with
  | Some r => Some r
  | None =>
      match s with
      | EmptyString => None
      | String _ s' => search_after key s'
      end
  end.

Definition search_backing_store (line : string) : option string :=
  search_after "Backing store path: " line.

End Re.

(* ===================================================================== *)
(** ** Further primitives *)
(* ===================================================================== *)

Import PyStr.

(** [sep.join(pieces)]. *)
Fixpoint join (sep : ascii) (pieces : list string) : string :=
  match pieces with
  | [] => EmptyString
  | [piece] => piece
  | piece :: pieces' => piece ++ String sep (join sep pieces')
  end.

(** Python's truth value of a string or [None]. *)
Definition truthy (o : option string) : bool :=
  match o with
  | Some (String _ _) => true
  | _ => false
  end.

(** [s.partition(sep)]: head and tail around the first separator. *)
Fixpoint partition (sep : ascii) (s : string) : string * string :=
  match s with
  | EmptyString => (EmptyString, EmptyString)
  | String c s' =>
      if Ascii.eqb c sep then (EmptyString, s')
      else let '(h, t) := partition sep s' in (String c h, t)
  end.

(* ===================================================================== *)
(** ** Status parser and identifier allocator: the loops over the text *)
(* ===================================================================== *)

(** The loop of [_list_backingstore_path] over the output of
    [_show_tgtadm]. *)
Definition list_backingstore_path_of (out : string) : list string :=
  fold_left
    (fun l line =>
       match Re.search_backing_store line with
       | Some g => if contains slash g then (l ++ [g])%list else l
       | None => l
       end)
    (split newline out) [].

(** The loop of [_get_next_tid]. *)
Definition get_next_tid_of (out : string) : Z :=
  let last_tid :=
    fold_left
      (fun last_tid line =>
         match Re.search_target line with
         | Some (ds, _) =>
             let tid := int_of_digits ds in
             if last_tid <? tid then tid else last_tid
         | None => last_tid
         end)
      (split newline out) 0 in
  last_tid + 1.

(** The loop of [_find_tid]: the first matching line returns. *)
Fixpoint find_tid_lines (iqn : string) (lines : list string) : option Z :=
  match lines with
  | [] => None
  | line :: lines' =>
      match Re.search_target_named iqn line with
      | Some ds => Some (int_of_digits ds)
      | None => find_tid_lines iqn lines'
      end
  end.

Definition find_tid_of (iqn out : string) : option Z :=
  find_tid_lines iqn (split newline out).

(** [_get_iqn], with [CONF.iscsi_iqn_prefix] as its first argument. *)
Definition _get_iqn (iscsi_iqn_prefix instance_name mountpoint : string)
  : string :=
  let mp := strip hyphen (replace slash hyphen mountpoint) in
  iscsi_iqn_prefix ++ ":" ++ instance_name ++ "-" ++ mp.

(* ===================================================================== *)
(** ** The world outside the module *)
(* ===================================================================== *)

(** The exceptions that cross the module. *)
Inductive exn : Type :=
| ProcessExecutionError (exit_code : Z) (stdout stderr : string)
| NovaException (message : string)
| VolumeDriverNotFound (driver_type : option string)
| KeyError (key : string)
| ExternalError (description : string).

Definition is_ProcessExecutionError (e : exn) : bool :=
  match e with ProcessExecutionError _ _ _ => true | _ => false end.

Definition exit_code_of (e : exn) : option Z :=
  match e with ProcessExecutionError c _ _ => Some c | _ => None end.

Record instance : Type := {
  instance_uuid : string;
  instance_name : string;
}.

Record bm_node : Type := { node_id : Z }.

Record bm_pxe_ip : Type := { pxe_address : string }.

(** A connection descriptor: [connection_info.get('driver_volume_type')]
    and [connection_info['data']]. *)
Record connection_info : Type := {
  driver_volume_type : option string;
  connection_data : gmap string string;
}.

Module CONF.

Record t : Type := {
  use_unsafe_iscsi : bool;
  iscsi_iqn_prefix : string;
  my_ip : string;
  host : string;
  libvirt_volume_drivers : list string;
}.

End CONF.

(** The state of a driver object. *)
Record driver : Type := {
  _initiator : option string;
  volume_drivers : gmap string string;
}.

(** The trace of a run, in the order of the calls: [utils.execute] on a
    command line, the two [db] lookups, an entry into
    [_volume_driver_method] (the dispatcher), the call of a sub-driver's
    method that the dispatcher forwards to, [get_iscsi_initiator], and
    [LOG.warn]. *)
Inductive event : Type :=
| Execute (cmd : list string)
| NodeLookup (uuid : string)
| PxeIpLookup (id : Z)
| Dispatch (method_name : string) (driver_type : option string)
    (mount_device : string)
| DriverCall (driver_class method_name : string) (mount_device : string)
| InitiatorDiscovery
| Warn (message : string).

(** The collaborators: each call reads and updates the world [W] and
    returns or raises. *)
Record Env (W : Type) : Type := {
  utils_execute : list string → W → (exn + string * string) * W;
  bm_node_get_by_instance_uuid : string → W → (exn + bm_node) * W;
  bm_pxe_ip_get_by_bm_node_id : Z → W → (exn + option bm_pxe_ip) * W;
  driver_method :
    string → string → connection_info → string →
    W → (exn + connection_info) * W;
  get_iscsi_initiator : W → (exn + option string) * W;
  format_instance : instance → string;
}.

Arguments utils_execute {W}.

Arguments bm_node_get_by_instance_uuid {W}.

Arguments bm_pxe_ip_get_by_bm_node_id {W}.

Arguments driver_method {W}.

Arguments get_iscsi_initiator {W}.

Arguments format_instance {W}.

(* ===================================================================== *)
(** ** Computations: world, exceptions and the trace of calls *)
(* ===================================================================== *)

Section Computations.

Context {W : Type}.

Definition M (A : Type) : Type := W → (exn + A) * W * list event.

Definition ret {A} (a : A) : M A := λ w, (inr a, w, []).

Definition raise {A} (e : exn) : M A := λ w, (inl e, w, []).

Definition bind {A B} (m : M A) (k : A → M B) : M B := λ w,
  match m w with
  | (inl e, w1, ev1) => (inl e, w1, ev1)
  | (inr a, w1, ev1) =>
      let '(r, w2, ev2) := k a w1 in (r, w2, (ev1 ++ ev2)%list)
  end.

(** A call to a collaborator, logged. *)
Definition call {A} (ev : event) (f : W → (exn + A) * W) : M A := λ w,
  let '(r, w1) := f w in (r, w1, [ev]).

Definition log (ev : event) : M unit := λ w, (inr tt, w, [ev]).

(** [try: body / except ProcessExecutionError as e: handler e]. *)
Definition try_except_ProcessExecutionError {A}
    (body : M A) (handler : exn → M A) : M A := λ w,
  match body w with
  | (inl e, w1, ev1) =>
      if is_ProcessExecutionError e then
        let '(r, w2, ev2) := handler e w1 in (r, w2, (ev1 ++ ev2)%list)
      else (inl e, w1, ev1)
  | (inr a, w1, ev1) => (inr a, w1, ev1)
  end.

(** [try: body / finally: final]: [final] runs on every way out of [body];
    what it raises replaces the outcome of [body]. *)
Definition try_finally {A B} (body : M A) (final : M B) : M A := λ w,
  let '(r, w1, ev1) := body w in
  let '(rf, w2, ev2) := final w1 in
  (match rf with inl e => inl e | inr _ => r end, w2, (ev1 ++ ev2)%list).

Definition result_of {A} (x : (exn + A) * W * list event) : exn + A :=
  x.1.1.

Definition world_of {A} (x : (exn + A) * W * list event) : W := x.1.2.

Definition events_of {A} (x : (exn + A) * W * list event) : list event :=
  x.2.

End Computations.

Notation "'let*' x ':=' m 'in' k" := (bind m (λ x, k))
  (at level 10, x pattern, m at level 100, k at level 200,
   format "'[v' 'let*'  x  ':='  m  'in' '/' k ']'").

Notation "m1 ';;' m2" := (bind m1 (λ _, m2))
  (at level 100, m2 at level 200, right associativity).

(* ===================================================================== *)
(** ** The functions of the module *)
(* ===================================================================== *)

(** The command lines handed to [utils.execute], every one with
    [run_as_root=True]; [execute] turns each argument into a string. *)
Definition tgtadm (mode op : string) (args : list string) : list string :=
  (["tgtadm"; "--lld"; "iscsi"; "--mode"; mode; "--op"; op] ++ args)%list.

Definition cmd_target_new (tid : Z) (iqn : string) : list string :=
  tgtadm "target" "new" ["--tid"; str_of_int tid; "--targetname"; iqn].

Definition cmd_logicalunit_new (tid : Z) (path : string) : list string :=
  tgtadm "logicalunit" "new"
    ["--tid"; str_of_int tid; "--lun"; "1"; "--backing-store"; path].

Definition cmd_target_bind (tid : Z) (address : string) : list string :=
  tgtadm "target" "bind"
    ["--tid"; str_of_int tid; "--initiator-address"; address].

Definition cmd_logicalunit_delete (tid : Z) : list string :=
  tgtadm "logicalunit" "delete" ["--tid"; str_of_int tid; "--lun"; "1"].

Definition cmd_target_delete (tid : Z) : list string :=
  tgtadm "target" "delete" ["--tid"; str_of_int tid].

Definition cmd_target_show_tid (tid : Z) : list string :=
  tgtadm "target" "show" ["--tid"; str_of_int tid].

Definition cmd_target_show : list string := tgtadm "target" "show" [].

Section Driver.

Context {W : Type} (env : Env W) (conf : CONF.t).

Definition execute (cmd : list string) : M (string * string) :=
  call (Execute cmd) (utils_execute env cmd).

Definition _get_baremetal_node_by_instance_uuid (uuid : string)
  : M bm_node :=
  call (NodeLookup uuid) (bm_node_get_by_instance_uuid env uuid).

Definition _create_iscsi_export_tgtadm (path : string) (tid : Z)
    (iqn : string) : M unit :=
  execute (cmd_target_new tid iqn) ;;
  execute (cmd_logicalunit_new tid path) ;;
  ret tt.

Definition _allow_iscsi_tgtadm (tid : Z) (address : string) : M unit :=
  execute (cmd_target_bind tid address) ;; ret tt.

(** The last [try] yields whether its handler returned from the function
    (exit code 22); falling out of the [try] reaches the final [raise]. *)
Definition _delete_iscsi_export_tgtadm (tid : Z) : M unit :=
  try_except_ProcessExecutionError
    (execute (cmd_logicalunit_delete tid) ;; ret tt)
    (λ _, ret tt) ;;
  try_except_ProcessExecutionError
    (execute (cmd_target_delete tid) ;; ret tt)
    (λ _, ret tt) ;;
  let* deleted :=
    try_except_ProcessExecutionError
      (execute (cmd_target_show_tid tid) ;; ret false)
      (λ e, if decide (exit_code_of e = Some 22) then ret true
            else raise e) in
  if deleted : bool then ret tt
  else raise (NovaException
                ("baremetal driver was unable to delete tid "
                 ++ str_of_int tid)).

Definition _show_tgtadm : M string :=
  let* r := execute cmd_target_show in ret r.1.

Definition _list_backingstore_path : M (list string) :=
  let* out := _show_tgtadm in ret (list_backingstore_path_of out).

Definition _get_next_tid : M Z :=
  let* out := _show_tgtadm in ret (get_next_tid_of out).

Definition _find_tid (iqn : string) : M (option Z) :=
  let* out := _show_tgtadm in ret (find_tid_of iqn out).

(** [VolumeDriver.__init__] and [LibvirtVolumeDriver.__init__]: the
    sub-driver of each [type=class] entry, later entries replacing earlier
    ones of the same type. *)
Definition VolumeDriver_init : driver :=
  {| _initiator := None; volume_drivers := ∅ |}.

Definition LibvirtVolumeDriver_init : driver :=
  {| _initiator := None;
     volume_drivers :=
       fold_left
         (λ (m : gmap string string) driver_str,
            let '(driver_type, driver_class) :=
              partition "="%char driver_str in
            <[driver_type := driver_class]> m)
         (CONF.libvirt_volume_drivers conf) ∅ |}.

(** [get_volume_connector]: the connector and the driver with its cache
    as the call leaves it. *)
Definition get_volume_connector (self : driver) (inst : instance)
  : M (driver * gmap string (option string)) :=
  let* self' :=
    (if truthy (_initiator self) then ret self
     else
       let* found :=
         call InitiatorDiscovery (get_iscsi_initiator env) in
       let self1 := {| _initiator := found;
                       volume_drivers := volume_drivers self |} in
       (if truthy (_initiator self1) then ret tt
        else log (Warn ("Could not determine iscsi initiator name "
                        ++ "for instance " ++ format_instance env inst))) ;;
       ret self1) in
  ret (self',
       <["ip" := Some (CONF.my_ip conf)]>
         (<["initiator" := _initiator self']>
            (<["host" := Some (CONF.host conf)]> ∅))).

(** [_volume_driver_method]: the sub-driver may update the descriptor it
    is handed; the updated descriptor is what the call yields. *)
Definition _volume_driver_method (self : driver) (method_name : string)
    (ci : connection_info) (mount_device : string) : M connection_info :=
  log (Dispatch method_name (driver_volume_type ci) mount_device) ;;
  match driver_volume_type ci with
  | None => raise (VolumeDriverNotFound None)
  | Some driver_type =>
      match volume_drivers self !! driver_type with
      | None => raise (VolumeDriverNotFound (Some driver_type))
      | Some cls =>
          call (DriverCall cls method_name mount_device)
               (driver_method env cls method_name ci mount_device)
      end
  end.

Definition attach_volume (self : driver) (ci : connection_info)
    (inst : instance) (mountpoint : string) : M unit :=
  let* node := _get_baremetal_node_by_instance_uuid (instance_uuid inst) in
  let* pxe_ip :=
    call (PxeIpLookup (node_id node))
         (bm_pxe_ip_get_by_bm_node_id env (node_id node)) in
  (match pxe_ip with
   | None =>
       if negb (CONF.use_unsafe_iscsi conf) then
         raise (NovaException ("No fixed PXE IP is associated to "
                               ++ instance_uuid inst))
       else ret tt
   | Some _ => ret tt
   end) ;;
  let mount_device := rpartition_tail slash mountpoint in
  let* ci' := _volume_driver_method self "connect_volume" ci mount_device in
  let* device_path :=
    match connection_data ci' !! "device_path" with
    | Some path => ret path
    | None => raise (KeyError "device_path")
    end in
  let iqn := _get_iqn (CONF.iscsi_iqn_prefix conf) (instance_name inst)
               mountpoint in
  let* tid := _get_next_tid in
  _create_iscsi_export_tgtadm device_path tid iqn ;;
  match pxe_ip with
  | Some ip => _allow_iscsi_tgtadm tid (pxe_address ip)
  | None => _allow_iscsi_tgtadm tid "ALL"
  end.

Definition detach_volume (self : driver) (ci : connection_info)
    (inst : instance) (mountpoint : string) : M unit :=
  let mount_device := rpartition_tail slash mountpoint in
  try_finally
    (let iqn := _get_iqn (CONF.iscsi_iqn_prefix conf) (instance_name inst)
                  mountpoint in
     let* tid := _find_tid iqn in
     match tid with
     | Some tid => _delete_iscsi_export_tgtadm tid
     | None => log (Warn ("detach volume could not find tid for " ++ iqn))
     end)
    (_volume_driver_method self "disconnect_volume" ci mount_device).

Definition get_all_block_devices (self : driver) : M (list string) :=
  _list_backingstore_path.

End Driver.

(* ===================================================================== *)
(** ** The status format, as relations on lines *)
(* ===================================================================== *)

(** [line] is a target header with identifier [n]: [Target <digits>:] at
    the head of the line, [n] the number the digits write. *)
Definition target_header (line : string) (n : Z) : Prop :=
  ∃ ds rest,
    line = "Target " ++ ds ++ ":" ++ rest ∧
    ds ≠ "" ∧ all_digits ds = true ∧ n = int_of_digits ds.

(** [m] is the largest identifier among the headers of [lines]. *)
Definition max_header_id (lines : list string) (m : Z) : Prop :=
  (∃ l, l ∈ lines ∧ target_header l m) ∧
  (∀ l n, l ∈ lines → target_header l n → n ≤ m).

Definition no_header (lines : list string) : Prop :=
  ∀ l n, l ∈ lines → ¬ target_header l n.

(** The identifier the parser reads off a line. *)
Definition header_id (line : string) : option Z :=
  match Re.search_target line with
  | Some (ds, _) => Some (int_of_digits ds)
  | None => None
  end.

(** The loop of [_get_next_tid], with [header_id] for its body. *)
Definition scan_last_tid (lines : list string) (start : Z) : Z :=
  fold_left
    (fun last_tid line =>
       match Re.search_target line with
       | Some (ds, _) =>
           let tid := int_of_digits ds in
           if last_tid <? tid then tid else last_tid
       | None => last_tid
       end) lines start.

(** [line] is a header with identifier [n] whose target name begins with
    [iqn]. *)
Definition header_name_begins (iqn line : string) (n : Z) : Prop :=
  ∃ ds k rest,
    line = "Target " ++ ds ++ ":" ++ repeat_char space k ++ iqn ++ rest ∧
    ds ≠ "" ∧ all_digits ds = true ∧ n = int_of_digits ds.

Definition backing_store_key : string := "Backing store path: ".

(** [line] holds the literal [Backing store path: ] and [v] is what follows
    its leftmost occurrence. *)
Definition backing_store_value (line v : string) : Prop :=
  ∃ pre, line = pre ++ backing_store_key ++ v ∧
         ∀ a b, line = a ++ backing_store_key ++ b →
                (String.length pre ≤ String.length a)%nat.

Definition no_backing_store (line : string) : Prop :=
  ¬ ∃ a b, line = a ++ backing_store_key ++ b.

(** The backing stores of a list of lines: the values of the backing-store
    lines that hold a path separator, in the order of the lines. *)
Inductive backing_stores : list string → list string → Prop :=
| backing_stores_nil : backing_stores [] []
| backing_stores_path line v lines vs :
    backing_store_value line v → contains slash v = true →
    backing_stores lines vs → backing_stores (line :: lines) (v :: vs)
| backing_stores_placeholder line v lines vs :
    backing_store_value line v → contains slash v = false →
    backing_stores lines vs → backing_stores (line :: lines) vs
| backing_stores_other line lines vs :
    no_backing_store line →
    backing_stores lines vs → backing_stores (line :: lines) vs.

(** The body of the loop of [_list_backingstore_path] on one line. *)
Definition backing_store_step (l : list string) (line : string)
  : list string :=
  match Re.search_backing_store line with
  | Some g => if contains slash g then (l ++ [g])%list else l
  | None => l
  end.

(* ===================================================================== *)
(** ** The IQN of an export, as relations on strings *)
(* ===================================================================== *)

(** [r] is [m] with every path separator replaced by a hyphen. *)
Inductive hyphenated : string → string → Prop :=
| hyphenated_nil : hyphenated "" ""
| hyphenated_sep m r :
    hyphenated m r → hyphenated (String slash m) (String hyphen r)
| hyphenated_other c m r :
    c ≠ slash → hyphenated m r → hyphenated (String c m) (String c r).

(** [t] is [r] without its leading and trailing hyphens. *)
Definition hyphens_trimmed (r t : string) : Prop :=
  (∃ a b, r = repeat_char hyphen a ++ t ++ repeat_char hyphen b) ∧
  (¬ ∃ u, t = "-" ++ u) ∧ (¬ ∃ u, t = u ++ "-").

(** A mountpoint written as an absolute path: one leading separator, no
    trailing separator and no hyphen, such as [/dev/vdb]. *)
Definition plain_mountpoint (m : string) : Prop :=
  ∃ s, m = String slash s ∧ contains hyphen s = false ∧
       head_char s ≠ Some slash ∧ last_char s ≠ Some slash.

(** Two instance names that the hyphen between name and mountpoint keeps
    apart: names of one length, or names without a hyphen. *)
Definition names_separable (i1 i2 : string) : Prop :=
  String.length i1 = String.length i2 ∨
  (contains hyphen i1 = false ∧ contains hyphen i2 = false).

(* ===================================================================== *)
(** ** Traces and outcomes *)
(* ===================================================================== *)

Fixpoint count (p : event → bool) (evs : list event) : nat :=
  match evs with
  | [] => O
  | ev :: evs' => ((if p ev then 1 else 0) + count p evs')%nat
  end.

(** Every event of every run of [m] passes [p]. *)
Definition emits_only {W A} (p : event → bool) (m : M (W:=W) A) : Prop :=
  ∀ w, forallb p (events_of (m w)) = true.

Definition is_disconnect (ev : event) : bool :=
  match ev with
  | Dispatch method_name _ _ => String.eqb method_name "disconnect_volume"
  | _ => false
  end.

Definition is_driver_disconnect (ev : event) : bool :=
  match ev with
  | DriverCall _ method_name _ => String.eqb method_name "disconnect_volume"
  | _ => false
  end.

(** The events of the target administration: commands and warnings. *)
Definition is_admin_event (ev : event) : bool :=
  match ev with
  | Execute _ | Warn _ => true
  | _ => false
  end.

(** A delete that returned, or failed with an execution error: both leave
    the deletion going. *)
Definition returned_or_failed {A} (r : exn + A) : Prop :=
  match r with
  | inr _ => True
  | inl e => is_ProcessExecutionError e = true
  end.

(** The argument that follows [flag] on a command line. *)
Fixpoint arg_after (flag : string) (cmd : list string) : option string :=
  match cmd with
  | a :: (b :: _) as rest =>
      if String.eqb a flag then Some b else arg_after flag rest
  | _ => None
  end.


(** The initiator address that [attach_volume] opens the target to. *)
Definition bind_address (pxe_ip : option bm_pxe_ip) : string :=
  match pxe_ip with
  | Some ip => pxe_address ip
  | None => "ALL"
  end.

(** Successive calls of [get_volume_connector] on one driver object, each
    call on the driver as the one before left it. *)
Fixpoint get_volume_connectors {W} (env : Env W) (conf : CONF.t)
    (self : driver) (insts : list instance)
  : M (driver * list (gmap string (option string))) :=
  match insts with
  | [] => ret (self, [])
  | inst :: insts' =>
      let* r := get_volume_connector env conf self inst in
      let* rs := get_volume_connectors env conf r.1 insts' in
      ret (rs.1, r.2 :: rs.2)
  end.

Definition initiator_warning {W} (env : Env W) (inst : instance) : event :=
  Warn ("Could not determine iscsi initiator name for instance "
        ++ format_instance env inst).

(* ===================================================================== *)
(** ** A scripted double of the collaborators, and sample data *)
(* ===================================================================== *)

(** The world is the queue of outcomes that [utils.execute] is about to
    give (an empty queue gives empty output); the node has identifier 1,
    the PXE address and the initiator name are fixed, and the sub-drivers
    return the descriptor as it is. *)
Definition scripted_env (pxe : option bm_pxe_ip) (initiator : option string)
  : Env (list (exn + string * string)) :=
  {| utils_execute := λ _ w,
       match w with
       | r :: w' => (r, w')
       | [] => (inr ("", ""), [])
       end;
     bm_node_get_by_instance_uuid := λ _ w, (inr {| node_id := 1 |}, w);
     bm_pxe_ip_get_by_bm_node_id := λ _ w, (inr pxe, w);
     driver_method := λ _ _ ci _ w, (inr ci, w);
     get_iscsi_initiator := λ w, (inr initiator, w);
     format_instance := instance_name |}.

Definition test_conf (unsafe : bool) : CONF.t :=
  {| CONF.use_unsafe_iscsi := unsafe;
     CONF.iscsi_iqn_prefix := "iqn.test";
     CONF.my_ip := "10.0.0.1";
     CONF.host := "compute1";
     CONF.libvirt_volume_drivers :=
       ["iscsi=nova.virt.libvirt.volume.LibvirtISCSIVolumeDriver"] |}.

Definition test_instance : instance :=
  {| instance_uuid := "uuid-1"; instance_name := "vm1" |}.

Definition test_connection : connection_info :=
  {| driver_volume_type := Some "iscsi";
     connection_data := <["device_path" := "/dev/sdb"]> ∅ |}.

Definition ok (out : string) : exn + string * string := inr (out, "").

Definition failed (exit_code : Z) : exn + string * string :=
  inl (ProcessExecutionError exit_code "" "tgtadm: failed").

Definition cached_driver : driver :=
  {| _initiator := Some "iqn.1993-08.org.debian:01:abc";
     volume_drivers := ∅ |}.

Definition status1 : string :=
  "Target 3: x" ++ String newline "Target 7: y".

Definition status2 : string :=
  "Target 1: iqn.test:vm1-dev-vdb" ++ String newline
  "    LUN: 0" ++ String newline
  "        Backing store path: None" ++ String newline
  "    LUN: 1" ++ String newline
  "        Backing store path: /dev/x".

Definition status3 : string :=
  "Target 1: iqn.test:vm1-dev-vdb1" ++ String newline
  "Target 2: iqn.test:vm1-dev-vdb".

(* ===================================================================== *)
(** ** Undoing, registry entries and further sample data *)
(* ===================================================================== *)

(** The events by which a run would take back an export or a connection:
    a delete command, or [disconnect_volume] at the dispatcher or at a
    sub-driver. *)
Definition is_undo_event (ev : event) : bool :=
  match ev with
  | Execute cmd => bool_decide (arg_after "--op" cmd = Some "delete")
  | Dispatch method_name _ _ | DriverCall _ method_name _ =>
      String.eqb method_name "disconnect_volume"
  | _ => false
  end.


(** An event that takes nothing back. *)
Definition keeps_exports (ev : event) : bool := negb (is_undo_event ev).

(** A descriptor without a device path, a configuration that registers the
    type [iscsi] twice, and a status text with the target of another
    instance before the target of [vm1]. *)
Definition bare_connection : connection_info :=
  {| driver_volume_type := Some "iscsi"; connection_data := ∅ |}.


Definition status4 : string :=
  "Target 1: iqn.test:vm9-dev-vdb" ++ String newline
  "Target 8: iqn.test:vm1-dev-vdb".

(* ===================================================================== *)
(** ** Proof automation *)
(* ===================================================================== *)

Create HintDb emits.


(* ===================================================================== *)
(** ** Facts about the string primitives *)
(* ===================================================================== *)

Section StringFacts.

Lemma append_nil_r (s : string) : s ++ "" = s.
Proof. induction s as [|c s IH]; simpl; [reflexivity | now rewrite IH]. Qed.

Lemma append_assoc (a b c : string) : (a ++ b) ++ c = a ++ (b ++ c).
Proof. induction a as [|x a IH]; simpl; [reflexivity | now rewrite IH]. Qed.

Lemma append_length (a b : string) :
  String.length (a ++ b) = (String.length a + String.length b)%nat.
Proof. induction a as [|x a IH]; simpl; [reflexivity | now rewrite IH]. Qed.

Lemma append_inv_length (a b c d : string) :
  String.length a = String.length c → a ++ b = c ++ d → a = c ∧ b = d.
Proof.
  revert c. induction a as [|x a IH]; intros [|y c] Hlen Heq;
    simpl in *; try discriminate.
  - split; [reflexivity | assumption].
  - injection Heq as -> Heq. injection Hlen as Hlen.
    destruct (IH c Hlen Heq) as [-> ->]. split; reflexivity.
Qed.

(** [strip_prefix] finds exactly the decompositions [p ++ r]. *)
Lemma strip_prefix_Some (p s r : string) :
  strip_prefix p s = Some r ↔ s = p ++ r.
Proof.
  revert s. induction p as [|a p IH]; intros s; simpl.
  - split; [intros [= ->] | intros ->]; reflexivity.
  - destruct s as [|b s].
    + split; discriminate.
    + destruct (Ascii.eqb_spec a b) as [->|Hne].
      * rewrite IH. split; [intros -> | intros [= ->]]; reflexivity.
      * split; [discriminate | intros [= -> _]; now destruct Hne].
Qed.

Lemma strip_prefix_app (p r : string) : strip_prefix p (p ++ r) = Some r.
Proof. now apply strip_prefix_Some. Qed.

Lemma startswith_true (p s : string) :
  startswith p s = true ↔ ∃ r, s = p ++ r.
Proof.
  unfold startswith. destruct (strip_prefix p s) as [r|] eqn:E.
  - apply strip_prefix_Some in E. split; [eauto | reflexivity].
  - split; [discriminate | intros [r Hr]].
    apply strip_prefix_Some in Hr. congruence.
Qed.

Lemma contains_true (c : ascii) (s : string) :
  contains c s = true ↔ ∃ a b, s = a ++ String c b.
Proof.
  induction s as [|d s IH]; simpl.
  - split; [discriminate | intros ([|? ?] & b & H); discriminate].
  - rewrite orb_true_iff, IH, Ascii.eqb_eq. split.
    + intros [-> | (a & b & ->)].
      * now exists "", s.
      * now exists (String d a), b.
    + intros ([|x a] & b & H); simpl in H; injection H as -> ->.
      * now left.
      * right. eauto.
Qed.

Lemma contains_app (c : ascii) (a b : string) :
  contains c (a ++ b) = contains c a || contains c b.
Proof.
  induction a as [|d a IH]; simpl; [reflexivity|].
  now rewrite IH, orb_assoc.
Qed.

Lemma is_digit_value (c : ascii) :
  is_digit c = true → 0 ≤ digit_value c ≤ 9.
Proof.
  unfold is_digit, digit_value. rewrite andb_true_iff.
  intros [H1 H2]. apply Nat.leb_le in H1, H2. lia.
Qed.

Lemma int_acc_ge (ds : string) (acc : Z) :
  all_digits ds = true → 0 ≤ acc → acc ≤ int_acc acc ds.
Proof.
  revert acc. induction ds as [|c ds IH]; intros acc Hd Hacc; simpl in *.
  - lia.
  - apply andb_true_iff in Hd as [Hc Hd].
    pose proof (is_digit_value c Hc).
    specialize (IH (10 * acc + digit_value c) Hd). lia.
Qed.

Lemma int_of_digits_nonneg (ds : string) :
  all_digits ds = true → 0 ≤ int_of_digits ds.
Proof. intros H. unfold int_of_digits. now apply int_acc_ge. Qed.

(** [span_digits] cuts the text after its longest head of digits. *)
Lemma span_digits_app (ds r : string) :
  all_digits ds = true →
  (match r with EmptyString => True | String c _ => is_digit c = false end) →
  span_digits (ds ++ r) = (ds, r).
Proof.
  intros Hd Hr. induction ds as [|c ds IH]; simpl in *.
  - destruct r as [|c r]; [reflexivity | simpl; now rewrite Hr].
  - apply andb_true_iff in Hd as [Hc Hd]. now rewrite Hc, IH.
Qed.

Lemma span_digits_spec (s ds r : string) :
  span_digits s = (ds, r) →
  s = ds ++ r ∧ all_digits ds = true ∧
  match r with EmptyString => True | String c _ => is_digit c = false end.
Proof.
  revert ds r. induction s as [|c s IH]; intros ds r; simpl.
  - intros [= <- <-]. auto.
  - destruct (is_digit c) eqn:Hc.
    + destruct (span_digits s) as [ds' r'].
      intros [= <- <-]. destruct (IH ds' r' eq_refl) as (-> & Hd & Hr).
      simpl. rewrite Hc. auto.
    + intros [= <- <-]. simpl. auto.
Qed.

Lemma colon_not_digit : is_digit colon = false.
Proof. reflexivity. Qed.

End StringFacts.

Section SplitFacts.

Lemma split_pieces_join (sep : ascii) (s : string) :
  join sep (split sep s) = s ∧
  Forall (λ piece, contains sep piece = false) (split sep s).
Proof.
  unfold split. induction s as [|c s [IHj IHf]]; simpl.
  - split; [reflexivity | repeat constructor].
  - destruct (split_pieces sep s) as [l ls].
    destruct (Ascii.eqb_spec c sep) as [->|Hne].
    + split; [|now constructor].
      change (join sep ("" :: l :: ls)) with (String sep (join sep (l :: ls))).
      now rewrite IHj.
    + apply Forall_cons in IHf as [Hl Hls]. split.
      * destruct ls as [|l' ls]; simpl in *; now rewrite <- IHj.
      * constructor; [|assumption]. simpl.
        apply Ascii.eqb_neq in Hne. now rewrite Hne, Hl.
Qed.

End SplitFacts.

(* ===================================================================== *)
(** ** Target headers *)
(* ===================================================================== *)

Section TargetHeaders.

Lemma search_target_Some (line ds rest : string) :
  Re.search_target line = Some (ds, rest) ↔
  line = "Target " ++ ds ++ ":" ++ rest ∧ ds ≠ "" ∧ all_digits ds = true.
Proof.
  unfold Re.search_target. split.
  - destruct (strip_prefix "Target " line) as [r|] eqn:Hp; [|discriminate].
    apply strip_prefix_Some in Hp.
    destruct (span_digits r) as [ds' r'] eqn:Hs.
    apply span_digits_spec in Hs as (-> & Hd & _).
    destruct ds' as [|d ds']; [discriminate|].
    destruct r' as [|c r']; [discriminate|].
    destruct (Ascii.eqb_spec c colon) as [->|]; [|discriminate].
    intros [= <- <-]. subst line. repeat split; [|assumption].
    discriminate.
  - intros (-> & Hne & Hd).
    rewrite strip_prefix_app.
    change (":" ++ rest) with (String colon rest).
    rewrite span_digits_app by (assumption || reflexivity).
    destruct ds as [|d ds]; [congruence|].
    now rewrite Ascii.eqb_refl.
Qed.

Lemma header_id_Some (line : string) (n : Z) :
  header_id line = Some n ↔ target_header line n.
Proof.
  unfold header_id, target_header. split.
  - destruct (Re.search_target line) as [[ds rest]|] eqn:E; [|discriminate].
    intros [= <-]. apply search_target_Some in E as (-> & Hne & Hd).
    now exists ds, rest.
  - intros (ds & rest & Hl & Hne & Hd & ->).
    assert (Re.search_target line = Some (ds, rest)) as ->
      by now apply search_target_Some.
    reflexivity.
Qed.

Lemma header_id_nonneg (line : string) (n : Z) :
  header_id line = Some n → 0 ≤ n.
Proof.
  intros (ds & rest & _ & _ & Hd & ->)%header_id_Some.
  now apply int_of_digits_nonneg.
Qed.

Lemma scan_last_tid_cons (line : string) (lines : list string) (a : Z) :
  scan_last_tid (line :: lines) a =
  scan_last_tid lines
    (match header_id line with Some n => Z.max a n | None => a end).
Proof.
  unfold scan_last_tid, header_id. simpl.
  destruct (Re.search_target line) as [[ds rest]|]; [|reflexivity].
  simpl. destruct (Z.ltb_spec a (int_of_digits ds)); f_equal; lia.
Qed.

Lemma scan_last_tid_bounds (lines : list string) (a : Z) :
  a ≤ scan_last_tid lines a ∧
  (∀ l n, l ∈ lines → header_id l = Some n → n ≤ scan_last_tid lines a) ∧
  (scan_last_tid lines a = a ∨
   ∃ l, l ∈ lines ∧ header_id l = Some (scan_last_tid lines a)).
Proof.
  revert a. induction lines as [|line lines IH]; intros a.
  - repeat split; [reflexivity | | now left].
    intros l n Hl. now apply elem_of_nil in Hl.
  - rewrite scan_last_tid_cons.
    destruct (header_id line) as [k|] eqn:Hk.
    + destruct (IH (Z.max a k)) as (Hge & Hub & Hex).
      split; [lia|]. split.
      * intros l n [->|Hl]%elem_of_cons Hn.
        -- rewrite Hk in Hn. injection Hn as ->. lia.
        -- eauto.
      * destruct Hex as [Heq | (l & Hl & Hn)].
        -- destruct (Z.max_spec a k) as [[_ Hm]|[_ Hm]];
             rewrite Hm in Heq.
           ++ right. exists line. split; [left|]. congruence.
           ++ left. congruence.
        -- right. exists l. split; [now right | assumption].
    + destruct (IH a) as (Hge & Hub & Hex).
      split; [assumption|]. split.
      * intros l n [->|Hl]%elem_of_cons Hn; [congruence | eauto].
      * destruct Hex as [Heq | (l & Hl & Hn)]; [now left|].
        right. exists l. split; [now right | assumption].
Qed.

End TargetHeaders.

Lemma get_next_tid_of_max (out : string) :
  (∀ m, max_header_id (split newline out) m → get_next_tid_of out = m + 1) ∧
  (no_header (split newline out) → get_next_tid_of out = 1).
Proof.
  unfold get_next_tid_of.
  change (fold_left _ (split newline out) 0)
    with (scan_last_tid (split newline out) 0).
  destruct (scan_last_tid_bounds (split newline out) 0) as (Hge & Hub & Hex).
  split.
  - intros m [(l & Hl & Hm) Hmax]. f_equal.
    apply header_id_Some in Hm.
    pose proof (Hub l m Hl Hm) as Hle.
    destruct Hex as [Heq | (l' & Hl' & Hn)].
    + pose proof (header_id_nonneg _ _ Hm). lia.
    + apply header_id_Some in Hn. specialize (Hmax _ _ Hl' Hn). lia.
  - intros Hno. destruct Hex as [-> | (l & Hl & Hn)]; [reflexivity|].
    apply header_id_Some in Hn. now destruct (Hno _ _ Hl Hn).
Qed.

(* ===================================================================== *)
(** ** Backing-store lines *)
(* ===================================================================== *)

Section BackingStores.

Lemma search_after_Some (key s v : string) :
  Re.search_after key s = Some v →
  ∃ pre, s = pre ++ key ++ v ∧
         ∀ a b, s = a ++ key ++ b →
                (String.length pre ≤ String.length a)%nat.
Proof.
  revert v. induction s as [|c s IH]; intros v; simpl;
    destruct (strip_prefix key _) as [r|] eqn:Hp.
  - intros [= <-]. apply strip_prefix_Some in Hp.
    exists "". split; [exact Hp | simpl; lia].
  - discriminate.
  - intros [= <-]. apply strip_prefix_Some in Hp.
    exists "". split; [exact Hp | simpl; lia].
  - intros Hs. destruct (IH v Hs) as (pre & -> & Hleft).
    exists (String c pre). split; [reflexivity|].
    intros [|x a] b Hab; simpl in Hab.
    + apply strip_prefix_Some in Hab. congruence.
    + injection Hab as _ Hab. specialize (Hleft a b Hab). simpl. lia.
Qed.

Lemma search_after_None (key s : string) :
  Re.search_after key s = None → ¬ ∃ a b, s = a ++ key ++ b.
Proof.
  induction s as [|c s IH]; simpl;
    destruct (strip_prefix key _) as [r|] eqn:Hp; try discriminate.
  - intros _ ([|x a] & b & Hab); simpl in Hab; [|discriminate].
    apply strip_prefix_Some in Hab. congruence.
  - intros Hs ([|x a] & b & Hab); simpl in Hab.
    + apply strip_prefix_Some in Hab. congruence.
    + injection Hab as _ Hab. apply (IH Hs). eauto.
Qed.

Lemma search_backing_store_Some (line v : string) :
  Re.search_backing_store line = Some v ↔ backing_store_value line v.
Proof.
  split; [apply search_after_Some|].
  intros (pre & Hl & Hleft).
  destruct (Re.search_backing_store line) as [w|] eqn:Hs.
  - apply search_after_Some in Hs as (pre' & Hl' & Hleft').
    pose proof (Hleft _ _ Hl') as H1. pose proof (Hleft' _ _ Hl) as H2.
    rewrite Hl in Hl'.
    apply append_inv_length in Hl' as [_ Hv]; [|lia].
    apply String.app_inj in Hv. now subst.
  - apply search_after_None in Hs. destruct Hs. eauto.
Qed.

Lemma search_backing_store_None (line : string) :
  Re.search_backing_store line = None ↔ no_backing_store line.
Proof.
  split; [apply search_after_None|].
  intros Hno. destruct (Re.search_backing_store line) as [w|] eqn:Hs;
    [|reflexivity].
  apply search_after_Some in Hs as (pre & Hl & _). destruct Hno. eauto.
Qed.

Lemma fold_backing_store_step (lines : list string) (acc : list string) :
  fold_left backing_store_step lines acc
  = (acc ++ fold_left backing_store_step lines [])%list.
Proof.
  revert acc. induction lines as [|line lines IH]; intros acc; simpl.
  - now rewrite app_nil_r.
  - rewrite (IH (backing_store_step acc line)),
      (IH (backing_store_step [] line)).
    unfold backing_store_step.
    destruct (Re.search_backing_store line) as [g|]; [|reflexivity].
    destruct (contains slash g); [|reflexivity].
    now rewrite <- app_assoc.
Qed.

Lemma backing_store_step_nil (line : string) :
  backing_store_step [] line =
  match Re.search_backing_store line with
  | Some g => if contains slash g then [g] else []
  | None => []
  end.
Proof. reflexivity. Qed.

Lemma backing_stores_fold (lines : list string) :
  backing_stores lines (fold_left backing_store_step lines []).
Proof.
  induction lines as [|line lines IH]; simpl; [constructor|].
  rewrite (fold_backing_store_step lines (backing_store_step [] line)),
    backing_store_step_nil.
  destruct (Re.search_backing_store line) as [g|] eqn:Hs.
  - apply search_backing_store_Some in Hs.
    destruct (contains slash g) eqn:Hc; simpl.
    + now apply backing_stores_path.
    + now apply backing_stores_placeholder with g.
  - apply search_backing_store_None in Hs.
    now apply backing_stores_other.
Qed.

Lemma backing_stores_fun (lines vs : list string) :
  backing_stores lines vs → vs = fold_left backing_store_step lines [].
Proof.
  induction 1 as [|line v lines vs Hv Hc _ ->|line v lines vs Hv Hc _ ->
                 |line lines vs Hno _ ->]; simpl; [reflexivity|..];
    rewrite (fold_backing_store_step lines (backing_store_step [] line)),
      backing_store_step_nil.
  - apply search_backing_store_Some in Hv. rewrite Hv, Hc. reflexivity.
  - apply search_backing_store_Some in Hv. rewrite Hv, Hc. reflexivity.
  - apply search_backing_store_None in Hno. rewrite Hno. reflexivity.
Qed.

End BackingStores.

Lemma list_backingstore_path_of_spec (out : string) (vs : list string) :
  backing_stores (split newline out) vs ↔ vs = list_backingstore_path_of out.
Proof.
  unfold list_backingstore_path_of.
  change (fold_left _ (split newline out) [])
    with (fold_left backing_store_step (split newline out) []).
  split; [apply backing_stores_fun | intros ->; apply backing_stores_fold].
Qed.

(* ===================================================================== *)
(** ** The pattern of the lookup by IQN *)
(* ===================================================================== *)

Section FindTid.

Lemma spaces_then_true (lit r : string) :
  Re.spaces_then lit r = true ↔
  ∃ k rest, r = repeat_char space k ++ lit ++ rest.
Proof.
  induction r as [|c r IH]; simpl.
  - rewrite startswith_true. split.
    + intros [rest Hr]. now exists O, rest.
    + intros ([|k] & rest & Hr); simpl in Hr; [eauto | discriminate].
  - destruct (Ascii.eqb_spec c space) as [->|Hne].
    + rewrite orb_true_iff, IH, startswith_true. split.
      * intros [(k & rest & ->) | [rest Hr]].
        -- now exists (S k), rest.
        -- now exists O, rest.
      * intros ([|k] & rest & Hr); simpl in Hr.
        -- right. eauto.
        -- left. injection Hr as ->. eauto.
    + rewrite startswith_true. split.
      * intros [rest Hr]. now exists O, rest.
      * intros ([|k] & rest & Hr); simpl in Hr; [eauto|].
        injection Hr as -> _. now destruct Hne.
Qed.

(** What the pattern of [_find_tid] accepts: a header whose text after
    the colon and the spaces begins with the IQN. *)
Lemma search_target_named_Some (iqn line ds : string) :
  Re.search_target_named iqn line = Some ds ↔
  ∃ k rest,
    line = "Target " ++ ds ++ ":" ++ repeat_char space k ++ iqn ++ rest ∧
    ds ≠ "" ∧ all_digits ds = true.
Proof.
  unfold Re.search_target_named. split.
  - destruct (Re.search_target line) as [[ds' r]|] eqn:Hs; [|discriminate].
    destruct (Re.spaces_then iqn r) eqn:Hsp; [|discriminate].
    intros [= <-]. apply search_target_Some in Hs as (-> & Hne & Hd).
    apply spaces_then_true in Hsp as (k & rest & ->). eauto.
  - intros (k & rest & Hl & Hne & Hd).
    assert (Re.search_target line
            = Some (ds, repeat_char space k ++ iqn ++ rest)) as ->
      by now apply search_target_Some.
    assert (Re.spaces_then iqn (repeat_char space k ++ iqn ++ rest) = true)
      as -> by (apply spaces_then_true; eauto).
    reflexivity.
Qed.

End FindTid.

Section FindTidLines.

Lemma find_tid_lines_Some (iqn : string) (lines : list string) (n : Z) :
  find_tid_lines iqn lines = Some n →
  ∃ before line after,
    lines = (before ++ line :: after)%list ∧
    header_name_begins iqn line n ∧
    ∀ l m, l ∈ before → ¬ header_name_begins iqn l m.
Proof.
  induction lines as [|line lines IH]; simpl; [discriminate|].
  destruct (Re.search_target_named iqn line) as [ds|] eqn:Hs.
  - intros [= <-]. exists [], line, lines. split; [reflexivity|]. split.
    + apply search_target_named_Some in Hs as (k & rest & Hl & Hne & Hd).
      now exists ds, k, rest.
    + intros l m Hl. now apply elem_of_nil in Hl.
  - intros (before & l0 & after & -> & Hn & Hfirst)%IH.
    exists (line :: before), l0, after. split; [reflexivity|].
    split; [assumption|].
    intros l m [->|Hl]%elem_of_cons; [|eauto].
    intros (ds & k & rest & Hl & Hne & Hd & _).
    assert (Re.search_target_named iqn line = Some ds) as Hs'
      by (apply search_target_named_Some; eauto).
    congruence.
Qed.

Lemma find_tid_lines_None (iqn : string) (lines : list string) :
  find_tid_lines iqn lines = None →
  ∀ l m, l ∈ lines → ¬ header_name_begins iqn l m.
Proof.
  induction lines as [|line lines IH]; simpl.
  - intros _ l m Hl. now apply elem_of_nil in Hl.
  - destruct (Re.search_target_named iqn line) as [ds|] eqn:Hs;
      [discriminate|].
    intros Hn l m [->|Hl]%elem_of_cons; [|now apply IH].
    intros (ds & k & rest & Hl & Hne & Hd & _).
    assert (Re.search_target_named iqn line = Some ds) as Hs'
      by (apply search_target_named_Some; eauto).
    congruence.
Qed.

End FindTidLines.

(* ===================================================================== *)
(** ** Hyphenation and trimming of the mountpoint *)
(* ===================================================================== *)

Section Strip.

Variable c : ascii.

Lemma head_char_neq (s : string) :
  head_char s ≠ Some c ↔ ¬ ∃ u, s = String c u.
Proof.
  destruct s as [|d s]; simpl.
  - split; [intros _ [u Hu]; discriminate | discriminate].
  - split.
    + intros Hd [u [= -> _]]. now apply Hd.
    + intros Hn [= ->]. apply Hn. now exists s.
Qed.

Lemma last_char_app (s : string) (d : ascii) :
  last_char (s ++ String d "") = Some d.
Proof.
  induction s as [|x s IH]; simpl; [reflexivity|].
  rewrite IH. now destruct s.
Qed.

Lemma last_char_Some (s : string) (d : ascii) :
  last_char s = Some d → ∃ u, s = u ++ String d "".
Proof.
  induction s as [|x s IH]; simpl; [discriminate|].
  destruct s as [|y s].
  - intros [= ->]. now exists "".
  - intros H. destruct (IH H) as [u ->]. now exists (String x u).
Qed.

Lemma last_char_neq (s : string) :
  last_char s ≠ Some c ↔ ¬ ∃ u, s = u ++ String c "".
Proof.
  split.
  - intros Hd [u ->]. now rewrite last_char_app in Hd.
  - intros Hn H. apply Hn. now apply last_char_Some.
Qed.

Lemma lstrip_id (s : string) : head_char s ≠ Some c → lstrip c s = s.
Proof.
  destruct s as [|d s]; simpl; [reflexivity|].
  intros Hd. destruct (Ascii.eqb_spec d c) as [->|]; [now destruct Hd|].
  reflexivity.
Qed.

Lemma lstrip_repeat_app (n : nat) (s : string) :
  lstrip c (repeat_char c n ++ s) = lstrip c s.
Proof.
  induction n as [|n IH]; simpl; [reflexivity|].
  now rewrite Ascii.eqb_refl.
Qed.

Lemma lstrip_decomp (s : string) :
  ∃ n, s = repeat_char c n ++ lstrip c s ∧ head_char (lstrip c s) ≠ Some c.
Proof.
  induction s as [|d s (n & Hs & Hh)]; simpl.
  - now exists O.
  - destruct (Ascii.eqb_spec d c) as [->|Hne].
    + exists (S n). simpl. now rewrite <- Hs.
    + exists O. split; [reflexivity|]. simpl. congruence.
Qed.

Lemma rstrip_repeat (n : nat) : rstrip c (repeat_char c n) = "".
Proof.
  induction n as [|n IH]; simpl; [reflexivity|].
  now rewrite IH, Ascii.eqb_refl.
Qed.

Lemma rstrip_app_repeat (s : string) (n : nat) :
  rstrip c (s ++ repeat_char c n) = rstrip c s.
Proof.
  induction s as [|d s IH]; simpl; [apply rstrip_repeat|].
  now rewrite IH.
Qed.

Lemma rstrip_id (s : string) : last_char s ≠ Some c → rstrip c s = s.
Proof.
  induction s as [|d s IH]; simpl; [reflexivity|].
  destruct s as [|e s].
  - simpl. intros Hd.
    destruct (Ascii.eqb_spec d c) as [->|]; [now destruct Hd|reflexivity].
  - intros Hl. now rewrite (IH Hl).
Qed.

Lemma rstrip_decomp (s : string) :
  ∃ n, s = rstrip c s ++ repeat_char c n ∧ last_char (rstrip c s) ≠ Some c.
Proof.
  induction s as [|d s (n & Hs & Hl)]; simpl.
  - now exists O.
  - destruct (rstrip c s) as [|e r] eqn:Hr.
    + destruct (Ascii.eqb_spec d c) as [->|Hne].
      * exists (S n). simpl in *. now rewrite <- Hs.
      * exists n. simpl in *. rewrite <- Hs. split; [reflexivity|].
        congruence.
    + exists n. rewrite Hs at 1. split; [reflexivity|].
      simpl in *. exact Hl.
Qed.

Lemma rstrip_head (s : string) :
  head_char s ≠ Some c → head_char (rstrip c s) ≠ Some c.
Proof.
  destruct s as [|d s]; simpl; [easy|].
  intros Hd. destruct (rstrip c s).
  - destruct (Ascii.eqb_spec d c); simpl; congruence.
  - simpl. exact Hd.
Qed.

End Strip.

Section Iqn.

Lemma hyphenated_replace (m : string) :
  hyphenated m (replace slash hyphen m).
Proof.
  induction m as [|c m IH]; simpl; [constructor|].
  destruct (Ascii.eqb_spec c slash) as [->|Hne]; now constructor.
Qed.

Lemma hyphenated_fun (m r : string) :
  hyphenated m r → r = replace slash hyphen m.
Proof.
  induction 1 as [|m r _ ->|c m r Hc _ ->]; simpl; [reflexivity..|].
  apply Ascii.eqb_neq in Hc. now rewrite Hc.
Qed.

Lemma hyphens_trimmed_strip (r : string) :
  hyphens_trimmed r (strip hyphen r).
Proof.
  unfold strip.
  destruct (lstrip_decomp hyphen r) as (a & Ha & Hh).
  destruct (rstrip_decomp hyphen (lstrip hyphen r)) as (b & Hb & Hl).
  split; [|split].
  - exists a, b. now rewrite <- Hb.
  - apply (head_char_neq hyphen). now apply rstrip_head.
  - now apply (last_char_neq hyphen).
Qed.

Lemma hyphens_trimmed_fun (r t : string) :
  hyphens_trimmed r t → t = strip hyphen r.
Proof.
  intros ((a & b & ->) & Hh & Hl). unfold strip.
  apply (head_char_neq hyphen) in Hh. apply (last_char_neq hyphen) in Hl.
  rewrite lstrip_repeat_app.
  destruct t as [|d t].
  - simpl. rewrite <- (append_nil_r (repeat_char hyphen b)).
    rewrite lstrip_repeat_app. reflexivity.
  - rewrite lstrip_id by exact Hh.
    rewrite rstrip_app_repeat. symmetry. now apply rstrip_id.
Qed.

End Iqn.

Section IqnInjectivity.

Lemma replace_inj_no_hyphen (a b : string) :
  contains hyphen a = false → contains hyphen b = false →
  replace slash hyphen a = replace slash hyphen b → a = b.
Proof.
  revert b. induction a as [|x a IH]; intros [|y b]; simpl;
    try discriminate; [reflexivity|].
  intros [Hx Ha]%orb_false_iff [Hy Hb]%orb_false_iff [= Hc Hr].
  f_equal; [|now apply IH].
  apply Ascii.eqb_neq in Hx, Hy.
  destruct (Ascii.eqb_spec x slash) as [->|], (Ascii.eqb_spec y slash)
    as [->|]; congruence.
Qed.

Lemma head_char_replace (s : string) :
  contains hyphen s = false → head_char s ≠ Some slash →
  head_char (replace slash hyphen s) ≠ Some hyphen.
Proof.
  destruct s as [|x s]; simpl; [easy|].
  intros [Hx _]%orb_false_iff Hs. apply Ascii.eqb_neq in Hx.
  destruct (Ascii.eqb_spec x slash) as [->|]; congruence.
Qed.

Lemma last_char_replace (s : string) :
  contains hyphen s = false → last_char s ≠ Some slash →
  last_char (replace slash hyphen s) ≠ Some hyphen.
Proof.
  induction s as [|x s IH]; [easy|].
  destruct s as [|y s].
  - simpl. intros [Hx _]%orb_false_iff Hs. apply Ascii.eqb_neq in Hx.
    destruct (Ascii.eqb_spec x slash) as [->|]; congruence.
  - intros Hc Hl. change (contains hyphen (String x (String y s)))
      with (Ascii.eqb x hyphen || contains hyphen (String y s)) in Hc.
    apply orb_false_iff in Hc as [_ Hc].
    exact (IH Hc Hl).
Qed.

Lemma strip_plain_mountpoint (s : string) :
  contains hyphen s = false →
  head_char s ≠ Some slash → last_char s ≠ Some slash →
  strip hyphen (replace slash hyphen (String slash s))
  = replace slash hyphen s.
Proof.
  intros Hc Hh Hl. unfold strip. simpl.
  rewrite lstrip_id by now apply head_char_replace.
  apply rstrip_id. now apply last_char_replace.
Qed.

Lemma append_sep_inj (c : ascii) (a a' b b' : string) :
  contains c a = false → contains c a' = false →
  a ++ String c b = a' ++ String c b' → a = a' ∧ b = b'.
Proof.
  revert a'. induction a as [|x a IH]; intros [|y a']; simpl.
  - intros _ _ [= ->]. auto.
  - intros _ [Hy _]%orb_false_iff [= -> _].
    now rewrite Ascii.eqb_refl in Hy.
  - intros [Hx _]%orb_false_iff _ [= -> _].
    now rewrite Ascii.eqb_refl in Hx.
  - intros [_ Ha]%orb_false_iff [_ Ha']%orb_false_iff [= -> Heq].
    destruct (IH a' Ha Ha' Heq) as [-> ->]. auto.
Qed.

Lemma get_iqn_inv (prefix i1 m1 i2 m2 : string) :
  _get_iqn prefix i1 m1 = _get_iqn prefix i2 m2 →
  i1 ++ "-" ++ strip hyphen (replace slash hyphen m1)
  = i2 ++ "-" ++ strip hyphen (replace slash hyphen m2).
Proof.
  unfold _get_iqn. intros H.
  apply String.app_inj in H. now apply (String.app_inj ":") in H.
Qed.

End IqnInjectivity.

(* ===================================================================== *)
(** ** Traces of computations *)
(* ===================================================================== *)

Section Traces.

Context {W : Type}.

Implicit Types (p : event → bool) (w : W).

Lemma count_app p (a b : list event) :
  count p (a ++ b)%list = (count p a + count p b)%nat.
Proof. induction a as [|ev a IH]; simpl; [reflexivity | rewrite IH; lia]. Qed.

Lemma count_none p (evs : list event) :
  forallb (λ ev, negb (p ev)) evs = true → count p evs = O.
Proof.
  induction evs as [|ev evs IH]; simpl; [reflexivity|].
  intros [Hev Hevs]%andb_true_iff. rewrite (IH Hevs).
  now destruct (p ev).
Qed.

Lemma forallb_weaken p (q : event → bool) (evs : list event) :
  (∀ ev, p ev = true → q ev = true) →
  forallb p evs = true → forallb q evs = true.
Proof.
  intros Hpq. induction evs as [|ev evs IH]; simpl; [reflexivity|].
  intros [Hev Hevs]%andb_true_iff. now rewrite (Hpq ev Hev), IH.
Qed.

Lemma emits_only_ret {A} p (a : A) : emits_only (W:=W) p (ret a).
Proof. intros w. reflexivity. Qed.

Lemma emits_only_raise {A} p (e : exn) : emits_only (W:=W) (A:=A) p (raise e).
Proof. intros w. reflexivity. Qed.

Lemma emits_only_log p (ev : event) :
  p ev = true → emits_only (W:=W) p (log ev).
Proof. intros Hev w. simpl. now rewrite Hev. Qed.

Lemma emits_only_call {A} p (ev : event) (f : W → (exn + A) * W) :
  p ev = true → emits_only p (call ev f).
Proof.
  intros Hev w. unfold call. destruct (f w) as [r w1]. simpl.
  now rewrite Hev.
Qed.

Lemma emits_only_bind {A B} p (m : M A) (k : A → M B) :
  emits_only (W:=W) p m → (∀ a, emits_only p (k a)) →
  emits_only p (bind m k).
Proof.
  intros Hm Hk w. unfold bind. specialize (Hm w).
  destruct (m w) as [[[e|a] w1] ev1]; [exact Hm|].
  specialize (Hk a w1). destruct (k a w1) as [[r w2] ev2].
  unfold events_of in *. simpl in *.
  now rewrite forallb_app, Hm, Hk.
Qed.

Lemma emits_only_try_except {A} p (body : M A) (handler : exn → M A) :
  emits_only (W:=W) p body → (∀ e, emits_only p (handler e)) →
  emits_only p (try_except_ProcessExecutionError body handler).
Proof.
  intros Hb Hh w. unfold try_except_ProcessExecutionError.
  specialize (Hb w). destruct (body w) as [[[e|a] w1] ev1]; [|exact Hb].
  destruct (is_ProcessExecutionError e); [|exact Hb].
  specialize (Hh e w1). destruct (handler e w1) as [[r w2] ev2].
  unfold events_of in *. simpl in *.
  now rewrite forallb_app, Hb, Hh.
Qed.

Lemma events_try_finally {A B} (body : M A) (final : M B) w :
  events_of (try_finally body final w)
  = (events_of (body w)
     ++ events_of (final (world_of (body w))))%list.
Proof.
  unfold try_finally, events_of, world_of.
  destruct (body w) as [[r w1] ev1]. simpl.
  now destruct (final w1) as [[rf w2] ev2].
Qed.

End Traces.

#[export] Hint Resolve emits_only_ret emits_only_raise emits_only_log
  emits_only_call emits_only_bind emits_only_try_except : emits.

Section DetachTraces.

Context {W : Type} (env : Env W) (conf : CONF.t).

Lemma execute_admin (cmd : list string) :
  emits_only is_admin_event (execute env cmd).
Proof. unfold execute. auto with emits. Qed.

Hint Resolve execute_admin : emits.

Lemma delete_iscsi_export_admin (tid : Z) :
  emits_only is_admin_event (_delete_iscsi_export_tgtadm env tid).
Proof.
  unfold _delete_iscsi_export_tgtadm.
  repeat first
    [ apply emits_only_bind | apply emits_only_try_except
    | match goal with |- ∀ _, _ => intro end
    | case_decide | case_match ];
    auto with emits.
Qed.

Lemma find_tid_admin (iqn : string) :
  emits_only is_admin_event (_find_tid env iqn).
Proof. unfold _find_tid, _show_tgtadm. auto 10 with emits. Qed.

Lemma admin_not_disconnect (evs : list event) :
  forallb is_admin_event evs = true → count is_disconnect evs = O ∧
  count is_driver_disconnect evs = O.
Proof.
  intros H. split; apply count_none;
    (eapply forallb_weaken; [|exact H]); now intros [].
Qed.

Lemma volume_driver_method_disconnect (self : driver) (ci : connection_info)
    (mount_device : string) (w : W) :
  let evs := events_of (_volume_driver_method env self "disconnect_volume"
                          ci mount_device w) in
  count is_disconnect evs = 1%nat ∧
  count is_driver_disconnect evs =
    (match driver_volume_type ci ≫= (volume_drivers self !!.) with
     | Some _ => 1 | None => 0
     end)%nat.
Proof.
  unfold _volume_driver_method, bind, log, raise, call, events_of. simpl.
  destruct (driver_volume_type ci) as [t|]; simpl; [|split; reflexivity].
  destruct (volume_drivers self !! t) as [cls|]; simpl; [|split; reflexivity].
  destruct (driver_method env cls _ ci mount_device w) as [r w1].
  split; reflexivity.
Qed.

End DetachTraces.

(* ===================================================================== *)
(** ** The parser functions on the output of the daemon *)
(* ===================================================================== *)

Section ShowRuns.

Context {W : Type} (env : Env W).

Lemma show_tgtadm_run (w w1 : W) (out err : string) :
  utils_execute env cmd_target_show w = (inr (out, err), w1) →
  _show_tgtadm env w = (inr out, w1, [Execute cmd_target_show]).
Proof.
  intros H. unfold _show_tgtadm, execute, bind, call, ret. now rewrite H.
Qed.

Lemma get_next_tid_run (w w1 : W) (out err : string) :
  utils_execute env cmd_target_show w = (inr (out, err), w1) →
  _get_next_tid env w
  = (inr (get_next_tid_of out), w1, [Execute cmd_target_show]).
Proof.
  intros H. unfold _get_next_tid, bind. now rewrite (show_tgtadm_run _ _ _ _ H).
Qed.

Lemma find_tid_run (iqn : string) (w w1 : W) (out err : string) :
  utils_execute env cmd_target_show w = (inr (out, err), w1) →
  _find_tid env iqn w
  = (inr (find_tid_of iqn out), w1, [Execute cmd_target_show]).
Proof.
  intros H. unfold _find_tid, bind. now rewrite (show_tgtadm_run _ _ _ _ H).
Qed.

Lemma get_all_block_devices_run (self : driver) (w w1 : W)
    (out err : string) :
  utils_execute env cmd_target_show w = (inr (out, err), w1) →
  get_all_block_devices env self w
  = (inr (list_backingstore_path_of out), w1, [Execute cmd_target_show]).
Proof.
  intros H. unfold get_all_block_devices, _list_backingstore_path, bind.
  now rewrite (show_tgtadm_run _ _ _ _ H).
Qed.

End ShowRuns.

(* ===================================================================== *)
(** ** The identifier allocator *)
(* ===================================================================== *)

(** C4. [_get_next_tid] answers one more than the largest identifier among
    the [Target <digits>:] header lines of the status text, and 1 when the
    text has no header line. *)
Theorem get_next_tid_spec {W} (env : Env W) (w w1 : W) (out err : string) :
  utils_execute env cmd_target_show w = (inr (out, err), w1) →
  (∀ m, max_header_id (split newline out) m →
        result_of (_get_next_tid env w) = inr (m + 1)) ∧
  (no_header (split newline out) →
   result_of (_get_next_tid env w) = inr 1).
Proof.
  intros Hshow. rewrite (get_next_tid_run env _ _ _ _ Hshow).
  unfold result_of. simpl.
  destruct (get_next_tid_of_max out) as [Hmax Hnone].
  split; [intros m Hm | intros Hno]; f_equal; auto.
Qed.

Lemma get_next_tid_spec_witness :
  result_of (_get_next_tid (scripted_env None None) [ok status1]) = inr 8 ∧
  result_of (_get_next_tid (scripted_env None None) [ok ""]) = inr 1.
Proof.
  split.
  - apply (proj1 (get_next_tid_spec (scripted_env None None)
                    [ok status1] [] status1 "" eq_refl) 7). split.
    + exists "Target 7: y". split.
      * vm_compute. right. left.
      * now apply header_id_Some.
    + intros l n Hl Hn. apply header_id_Some in Hn.
      vm_compute in Hl.
      apply elem_of_cons in Hl as [->|Hl];
        [|apply elem_of_cons in Hl as [->|Hl]; [|now apply elem_of_nil in Hl]];
        vm_compute in Hn; injection Hn as <-; lia.
  - apply (proj2 (get_next_tid_spec (scripted_env None None)
                    [ok ""] [] "" "" eq_refl)).
    intros l n Hl Hn. apply header_id_Some in Hn.
    vm_compute in Hl. apply elem_of_cons in Hl as [->|Hl];
      [discriminate | now apply elem_of_nil in Hl].
Defined.

(** C5, on the code: the pattern of [_find_tid] has no end anchor, so a
    header whose target name only begins with the IQN is taken.  With the
    exports of [/dev/vdb1] (target 1) and [/dev/vdb] (target 2) of one
    instance, the lookup of the IQN of [/dev/vdb] answers 1; with the
    export of [/dev/vdb1] alone it answers 1 where no target has that
    name; and the detach of [/dev/vdb] deletes target 1. *)
Theorem find_tid_prefix_clash :
  let env := scripted_env None None in
  let iqn := _get_iqn "iqn.test" "vm1" "/dev/vdb" in
  iqn = "iqn.test:vm1-dev-vdb" ∧
  _get_iqn "iqn.test" "vm1" "/dev/vdb1" = "iqn.test:vm1-dev-vdb1" ∧
  result_of (_find_tid env iqn [ok status3]) = inr (Some 1) ∧
  result_of (_find_tid env iqn [ok "Target 1: iqn.test:vm1-dev-vdb1"])
  = inr (Some 1) ∧
  events_of (detach_volume env (test_conf false)
               (LibvirtVolumeDriver_init (test_conf false)) test_connection
               test_instance "/dev/vdb"
               [ok status3; ok ""; ok ""; failed 22])
  = [Execute cmd_target_show;
     Execute (cmd_logicalunit_delete 1);
     Execute (cmd_target_delete 1);
     Execute (cmd_target_show_tid 1);
     Dispatch "disconnect_volume" (Some "iscsi") "vdb";
     DriverCall "nova.virt.libvirt.volume.LibvirtISCSIVolumeDriver"
       "disconnect_volume" "vdb"].
Proof. repeat split. Qed.

(* ===================================================================== *)
(** ** Backing stores in use *)
(* ===================================================================== *)

(** C8. [get_all_block_devices], that is [_list_backingstore_path], returns
    exactly the values of the [Backing store path: <value>] lines whose
    value has a path separator, in the order of the lines; values without
    one, such as [None], and lines of any other form are passed over, and
    no text makes the parsing fail. *)
Theorem list_backingstore_path_spec {W} (env : Env W) (self : driver)
    (w w1 : W) (out err : string) :
  utils_execute env cmd_target_show w = (inr (out, err), w1) →
  get_all_block_devices env self w = _list_backingstore_path env w ∧
  ∀ vs, backing_stores (split newline out) vs ↔
        result_of (get_all_block_devices env self w) = inr vs.
Proof.
  intros Hshow. split; [reflexivity|]. intros vs.
  rewrite (get_all_block_devices_run env self _ _ _ _ Hshow).
  unfold result_of. simpl. rewrite list_backingstore_path_of_spec.
  split; [now intros -> | now intros [= ->]].
Qed.

Lemma list_backingstore_path_spec_witness :
  result_of (get_all_block_devices (scripted_env None None)
               VolumeDriver_init [ok status2]) = inr ["/dev/x"].
Proof.
  apply (proj2 (list_backingstore_path_spec (scripted_env None None)
                  VolumeDriver_init [ok status2] [] status2 "" eq_refl)).
  apply list_backingstore_path_of_spec. reflexivity.
Defined.

(* ===================================================================== *)
(** ** The IQN *)
(* ===================================================================== *)

(** C7. [_get_iqn] formats [<prefix>:<instance name>-<mp>], where [mp] is
    the mountpoint with every path separator replaced by a hyphen and the
    leading and trailing hyphens trimmed; the prefix [iqn.test], instance
    [vm1] and mountpoint [/dev/vdb] give [iqn.test:vm1-dev-vdb]. *)
Theorem get_iqn_format :
  (∀ prefix instance_name mountpoint r mp,
     hyphenated mountpoint r → hyphens_trimmed r mp →
     _get_iqn prefix instance_name mountpoint
     = prefix ++ ":" ++ instance_name ++ "-" ++ mp) ∧
  (∀ mountpoint, ∃ r mp, hyphenated mountpoint r ∧ hyphens_trimmed r mp) ∧
  _get_iqn "iqn.test" "vm1" "/dev/vdb" = "iqn.test:vm1-dev-vdb".
Proof.
  split; [|split].
  - intros prefix instance_name mountpoint r mp Hr Hmp.
    apply hyphenated_fun in Hr as ->.
    apply hyphens_trimmed_fun in Hmp as ->. reflexivity.
  - intros mountpoint. eexists _, _. split.
    + apply hyphenated_replace.
    + apply hyphens_trimmed_strip.
  - reflexivity.
Qed.

Lemma get_iqn_format_witness :
  _get_iqn "iqn.2010-10.org.openstack.baremetal" "instance-00000001"
    "/dev/vdb/"
  = "iqn.2010-10.org.openstack.baremetal:instance-00000001-dev-vdb".
Proof.
  apply (proj1 get_iqn_format "iqn.2010-10.org.openstack.baremetal"
           "instance-00000001" "/dev/vdb/" "-dev-vdb-" "dev-vdb").
  - repeat (constructor; try discriminate).
  - split; [|split].
    + now exists 1%nat, 1%nat.
    + intros [u [=]].
    + apply (proj1 (last_char_neq hyphen "dev-vdb")).
      vm_compute. discriminate.
Defined.

(** C6, as the code has it: the hyphenation and the trimming lose
    information, so [_get_iqn] is not injective in general; it is on
    absolute, hyphen-free mountpoints and instance names that are
    hyphen-free or of one length. *)
Theorem get_iqn_injective_plain (prefix i1 m1 i2 m2 : string) :
  names_separable i1 i2 → plain_mountpoint m1 → plain_mountpoint m2 →
  (i1, m1) ≠ (i2, m2) →
  _get_iqn prefix i1 m1 ≠ _get_iqn prefix i2 m2.
Proof.
  intros Hn (s1 & -> & Hc1 & Hh1 & Hl1) (s2 & -> & Hc2 & Hh2 & Hl2) Hne Heq.
  apply get_iqn_inv in Heq.
  rewrite !strip_plain_mountpoint in Heq by assumption.
  assert (i1 = i2 ∧ replace slash hyphen s1 = replace slash hyphen s2)
    as [-> Hr].
  { destruct Hn as [Hlen | [Hi1 Hi2]].
    - destruct (append_inv_length _ _ _ _ Hlen Heq) as [-> H].
      split; [reflexivity|]. now injection H.
    - now apply (append_sep_inj hyphen). }
  apply replace_inj_no_hyphen in Hr; [|assumption..].
  subst s2. now apply Hne.
Qed.

Lemma get_iqn_injective_plain_witness :
  _get_iqn "iqn.test" "instance-00000001" "/dev/vdb"
  ≠ _get_iqn "iqn.test" "instance-00000002" "/dev/vdb" ∧
  _get_iqn "iqn.test" "vm1" "/dev/vdb" ≠ _get_iqn "iqn.test" "vm1" "/dev/vdc".
Proof.
  split.
  - apply get_iqn_injective_plain.
    + left. reflexivity.
    + exists "dev/vdb". repeat split; (reflexivity || discriminate).
    + exists "dev/vdb". repeat split; (reflexivity || discriminate).
    + discriminate.
  - apply get_iqn_injective_plain.
    + right. split; reflexivity.
    + exists "dev/vdb". repeat split; (reflexivity || discriminate).
    + exists "dev/vdc". repeat split; (reflexivity || discriminate).
    + discriminate.
Defined.

(** C6 as stated fails: the mountpoints [/dev/vdb] and [/dev/vdb/] of one
    instance, and the pairs ([a-b], [/c]) and ([a], [/b/c]), are distinct
    and get one IQN. *)
Lemma get_iqn_not_injective :
  ¬ (∀ prefix i1 m1 i2 m2 : string,
       (i1, m1) ≠ (i2, m2) →
       _get_iqn prefix i1 m1 ≠ _get_iqn prefix i2 m2).
Proof.
  intros H.
  apply (H "iqn.test" "vm1" "/dev/vdb" "vm1" "/dev/vdb/");
    [discriminate | reflexivity].
Qed.

Example get_iqn_collision_names :
  _get_iqn "iqn.test" "a-b" "/c" = _get_iqn "iqn.test" "a" "/b/c".
Proof. reflexivity. Qed.

(* ===================================================================== *)
(** ** Deleting an export *)
(* ===================================================================== *)

(** C1, as the code has it: after the two deletes, whose execution errors
    are dropped one by one, the show for the same target is issued and
    alone decides.  An execution error with exit code 22 is the one outcome
    that returns; a show that succeeds raises the error naming the target;
    any other failure of the show is raised again as it is, not turned into
    that error. *)
Theorem delete_iscsi_export_outcome {W} (env : Env W) (tid : Z) (w : W)
    (r1 r2 r3 : exn + string * string) (w1 w2 w3 : W) :
  utils_execute env (cmd_logicalunit_delete tid) w = (r1, w1) →
  returned_or_failed r1 →
  utils_execute env (cmd_target_delete tid) w1 = (r2, w2) →
  returned_or_failed r2 →
  utils_execute env (cmd_target_show_tid tid) w2 = (r3, w3) →
  _delete_iscsi_export_tgtadm env tid w
  = (match r3 with
     | inl e => if decide (exit_code_of e = Some 22) then inr tt else inl e
     | inr _ => inl (NovaException
                       ("baremetal driver was unable to delete tid "
                        ++ str_of_int tid))
     end,
     w3,
     [Execute (cmd_logicalunit_delete tid);
      Execute (cmd_target_delete tid);
      Execute (cmd_target_show_tid tid)]).
Proof.
  intros H1 Hr1 H2 Hr2 H3.
  unfold _delete_iscsi_export_tgtadm, try_except_ProcessExecutionError,
    execute, bind, call, ret, raise.
  rewrite H1. simpl.
  destruct r1 as [e1|a1]; simpl in *; [rewrite Hr1; simpl|];
    rewrite H2; simpl;
    (destruct r2 as [e2|a2]; simpl in *; [rewrite Hr2; simpl|]);
    rewrite H3; simpl;
    (destruct r3 as [e3|a3]; simpl; [|reflexivity]);
    (destruct e3; simpl; try reflexivity; case_decide; reflexivity).
Qed.

Lemma delete_iscsi_export_outcome_witness :
  _delete_iscsi_export_tgtadm (scripted_env None None) 3
    [failed 1; ok ""; failed 22]
  = (inr tt, [],
     [Execute (cmd_logicalunit_delete 3); Execute (cmd_target_delete 3);
      Execute (cmd_target_show_tid 3)]) ∧
  _delete_iscsi_export_tgtadm (scripted_env None None) 3
    [ok ""; ok ""; ok "Target 3: iqn.test:vm1-dev-vdb"]
  = (inl (NovaException "baremetal driver was unable to delete tid 3"), [],
     [Execute (cmd_logicalunit_delete 3); Execute (cmd_target_delete 3);
      Execute (cmd_target_show_tid 3)]).
Proof.
  split.
  - apply (delete_iscsi_export_outcome (scripted_env None None) 3
             [failed 1; ok ""; failed 22]
             (failed 1) (ok "") (failed 22) [ok ""; failed 22] [failed 22] []);
      reflexivity || exact I.
  - apply (delete_iscsi_export_outcome (scripted_env None None) 3
             [ok ""; ok ""; ok "Target 3: iqn.test:vm1-dev-vdb"]
             (ok "") (ok "") (ok "Target 3: iqn.test:vm1-dev-vdb")
             [ok ""; ok "Target 3: iqn.test:vm1-dev-vdb"]
             [ok "Target 3: iqn.test:vm1-dev-vdb"] []);
      reflexivity || exact I.
Defined.

(** C1 as stated fails: when the show for target 3 fails with exit code 1,
    the run ends with that execution error, which is not the error naming
    the target. *)
Lemma delete_iscsi_export_show_failure_reraised :
  let run := _delete_iscsi_export_tgtadm (scripted_env None None) 3
               [ok ""; ok ""; failed 1] in
  result_of run = inl (ProcessExecutionError 1 "" "tgtadm: failed") ∧
  ∀ message, result_of run ≠ inl (NovaException message).
Proof. split; [reflexivity | discriminate]. Qed.

(* ===================================================================== *)
(** ** Attach *)
(* ===================================================================== *)

(** C2. When the node has no PXE address and [use_unsafe_iscsi] is off,
    [attach_volume] raises right after the two lookups: no command is
    executed, the dispatcher is not entered, and the world is as the
    lookups left it. *)
Theorem attach_volume_policy {W} (env : Env W) (conf : CONF.t)
    (self : driver) (ci : connection_info) (inst : instance)
    (mountpoint : string) (w w1 w2 : W) (node : bm_node) :
  bm_node_get_by_instance_uuid env (instance_uuid inst) w = (inr node, w1) →
  bm_pxe_ip_get_by_bm_node_id env (node_id node) w1 = (inr None, w2) →
  CONF.use_unsafe_iscsi conf = false →
  attach_volume env conf self ci inst mountpoint w
  = (inl (NovaException ("No fixed PXE IP is associated to "
                         ++ instance_uuid inst)),
     w2,
     [NodeLookup (instance_uuid inst); PxeIpLookup (node_id node)]).
Proof.
  intros Hnode Hpxe Hunsafe.
  unfold attach_volume, _get_baremetal_node_by_instance_uuid, bind, call.
  rewrite Hnode. simpl. rewrite Hpxe. simpl. rewrite Hunsafe. reflexivity.
Qed.

Lemma attach_volume_policy_witness :
  attach_volume (scripted_env None None) (test_conf false)
    (LibvirtVolumeDriver_init (test_conf false)) test_connection
    test_instance "/dev/vdb" [ok ""]
  = (inl (NovaException "No fixed PXE IP is associated to uuid-1"),
     [ok ""], [NodeLookup "uuid-1"; PxeIpLookup 1]).
Proof.
  apply (attach_volume_policy (scripted_env None None) (test_conf false)
           (LibvirtVolumeDriver_init (test_conf false)) test_connection
           test_instance "/dev/vdb" [ok ""] [ok ""] [ok ""]
           {| node_id := 1 |}); reflexivity.
Defined.



Example attach_volume_unsafe_run :
  attach_volume (scripted_env None None) (test_conf true)
    (LibvirtVolumeDriver_init (test_conf true)) test_connection
    test_instance "/dev/vdb" [ok status1]
  = (inr tt, [],
     [NodeLookup "uuid-1"; PxeIpLookup 1;
      Dispatch "connect_volume" (Some "iscsi") "vdb";
      DriverCall "nova.virt.libvirt.volume.LibvirtISCSIVolumeDriver"
        "connect_volume" "vdb";
      Execute cmd_target_show;
      Execute (cmd_target_new 8 "iqn.test:vm1-dev-vdb");
      Execute (cmd_logicalunit_new 8 "/dev/sdb");
      Execute (cmd_target_bind 8 "ALL")]).
Proof. reflexivity. Qed.

(* ===================================================================== *)
(** ** Detach *)
(* ===================================================================== *)

(** C3. Every run of [detach_volume] enters the dispatcher for
    [disconnect_volume] exactly once, whatever the lookup and the deletion
    of the target do (found and deleted, not found, or raising), and the
    sub-driver's [disconnect_volume] is called at most once; when the
    status text has no target for the IQN, the run logs the warning, issues
    no delete, and ends as the disconnect ends. *)
Theorem detach_volume_disconnect_once {W} (env : Env W) (conf : CONF.t)
    (self : driver) (ci : connection_info) (inst : instance)
    (mountpoint : string) (w : W) :
  let run := detach_volume env conf self ci inst mountpoint w in
  let iqn := _get_iqn (CONF.iscsi_iqn_prefix conf) (instance_name inst)
               mountpoint in
  let mount_device := rpartition_tail slash mountpoint in
  count is_disconnect (events_of run) = 1%nat ∧
  (count is_driver_disconnect (events_of run) ≤ 1)%nat ∧
  ∀ out err w1,
    utils_execute env cmd_target_show w = (inr (out, err), w1) →
    find_tid_of iqn out = None →
    let final := _volume_driver_method env self "disconnect_volume" ci
                   mount_device w1 in
    run = (match result_of final with inl e => inl e | inr _ => inr tt end,
           world_of final,
           [Execute cmd_target_show;
            Warn ("detach volume could not find tid for " ++ iqn)]
           ++ events_of final)%list.
Proof.
  intros run iqn mount_device. subst run. unfold detach_volume.
  fold iqn mount_device.
  set (body := bind (_find_tid env iqn) _).
  assert (emits_only is_admin_event body) as Hbody.
  { apply emits_only_bind; [apply find_tid_admin|].
    intros [tid|]; [apply delete_iscsi_export_admin|].
    now apply emits_only_log. }
  split; [|split].
  - rewrite events_try_finally, count_app.
    destruct (admin_not_disconnect _ (Hbody w)) as [-> _].
    apply volume_driver_method_disconnect.
  - rewrite events_try_finally, count_app.
    destruct (admin_not_disconnect _ (Hbody w)) as [_ ->].
    destruct (volume_driver_method_disconnect env self ci mount_device
                (world_of (body w))) as [_ ->].
    simpl. case_match; lia.
  - intros out err w1 Hshow Hnone. subst body.
    unfold try_finally, _find_tid, _show_tgtadm, execute, bind, call, ret,
      log. rewrite Hshow. simpl. rewrite Hnone. simpl.
    destruct (_volume_driver_method env self "disconnect_volume" ci
                mount_device w1) as [[rf w2] evf].
    reflexivity.
Qed.

Lemma detach_volume_disconnect_once_witness :
  detach_volume (scripted_env None None) (test_conf false)
    (LibvirtVolumeDriver_init (test_conf false)) test_connection
    test_instance "/dev/vdb" [ok "Target 1: iqn.test:vm2-dev-vdb"]
  = (inr tt, [],
     [Execute cmd_target_show;
      Warn "detach volume could not find tid for iqn.test:vm1-dev-vdb";
      Dispatch "disconnect_volume" (Some "iscsi") "vdb";
      DriverCall "nova.virt.libvirt.volume.LibvirtISCSIVolumeDriver"
        "disconnect_volume" "vdb"]).
Proof.
  apply (proj2 (proj2 (detach_volume_disconnect_once
           (scripted_env None None) (test_conf false)
           (LibvirtVolumeDriver_init (test_conf false)) test_connection
           test_instance "/dev/vdb" [ok "Target 1: iqn.test:vm2-dev-vdb"]))
         "Target 1: iqn.test:vm2-dev-vdb" "" []).
  - reflexivity.
  - reflexivity.
Defined.

(* ===================================================================== *)
(** ** The volume connector *)
(* ===================================================================== *)

(** C10. [get_volume_connector] caches the initiator name in the driver.
    With a non-empty name cached, a call, and so every later call, returns
    that name and touches nothing; with none cached the discovery runs
    once, its answer is stored and returned, and an empty answer is logged
    and leaves the next call to discover again.  The connector has the keys
    [ip], [initiator] and [host], and no others. *)
Theorem get_volume_connector_cache {W} (env : Env W) (conf : CONF.t)
    (self : driver) (inst : instance) (w : W) :
  let run := get_volume_connector env conf self inst w in
  (truthy (_initiator self) = true →
   ∃ c, run = (inr (self, c), w, []) ∧
        c !! "initiator" = Some (_initiator self) ∧
        ∀ insts,
          get_volume_connectors env conf self insts w
          = (inr (self, (λ _, c) <$> insts), w, [])) ∧
  (truthy (_initiator self) = false →
   ∀ found w1,
     get_iscsi_initiator env w = (inr found, w1) →
     ∃ c, run = (inr ({| _initiator := found;
                         volume_drivers := volume_drivers self |}, c),
                 w1,
                 InitiatorDiscovery
                 :: (if truthy found then [] else [initiator_warning env inst]))
          ∧ c !! "initiator" = Some found) ∧
  (InitiatorDiscovery ∈ events_of run → truthy (_initiator self) = false) ∧
  (∀ self' c,
     result_of run = inr (self', c) →
     dom c = ({["ip"; "initiator"; "host"]} : gset string) ∧
     c !! "ip" = Some (Some (CONF.my_ip conf)) ∧
     c !! "initiator" = Some (_initiator self') ∧
     c !! "host" = Some (Some (CONF.host conf))).
Proof.
  intros run. subst run. repeat split.
  - intros Hc. eexists. split; [|split].
    + unfold get_volume_connector, bind, ret. rewrite Hc. reflexivity.
    + reflexivity.
    + intros insts. induction insts as [|i insts IH]; [reflexivity|].
      simpl. unfold bind at 1.
      unfold get_volume_connector at 1, bind at 1, ret at 1. rewrite Hc.
      simpl. unfold bind at 1. rewrite IH. reflexivity.
  - intros Hc found w1 Hfound. eexists. split.
    + unfold get_volume_connector, bind, ret, call, log. rewrite Hc, Hfound.
      simpl. destruct (truthy found); reflexivity.
    + reflexivity.
  - unfold get_volume_connector, bind, ret, call, log, events_of.
    destruct (truthy (_initiator self)); [|reflexivity].
    simpl. intros H. now apply elem_of_nil in H.
  - revert H. unfold get_volume_connector, bind, ret, call, log, result_of.
    repeat (case_match; simplify_eq/=); intros [= <- <-];
      rewrite !dom_insert_L, dom_empty_L; set_solver.
  - revert H. unfold get_volume_connector, bind, ret, call, log, result_of.
    repeat (case_match; simplify_eq/=); intros [= <- <-]; reflexivity.
  - revert H. unfold get_volume_connector, bind, ret, call, log, result_of.
    repeat (case_match; simplify_eq/=); intros [= <- <-]; reflexivity.
  - revert H. unfold get_volume_connector, bind, ret, call, log, result_of.
    repeat (case_match; simplify_eq/=); intros [= <- <-]; reflexivity.
Qed.

Lemma get_volume_connector_cache_witness :
  (∃ c, get_volume_connector (scripted_env None None) (test_conf false)
          cached_driver test_instance []
        = (inr (cached_driver, c), [], []) ∧
        c !! "initiator" = Some (Some "iqn.1993-08.org.debian:01:abc") ∧
        ∀ insts,
          get_volume_connectors (scripted_env None None) (test_conf false)
            cached_driver insts []
          = (inr (cached_driver, (λ _, c) <$> insts), [], [])) ∧
  (∃ c, get_volume_connector (scripted_env None (Some "")) (test_conf false)
          VolumeDriver_init test_instance []
        = (inr ({| _initiator := Some ""; volume_drivers := ∅ |}, c), [],
           [InitiatorDiscovery;
            Warn "Could not determine iscsi initiator name for instance vm1"])
        ∧ c !! "initiator" = Some (Some "")).
Proof.
  split.
  - apply (proj1 (get_volume_connector_cache (scripted_env None None)
                    (test_conf false) cached_driver test_instance [])).
    reflexivity.
  - apply (proj1 (proj2 (get_volume_connector_cache
                    (scripted_env None (Some ""))
                    (test_conf false) VolumeDriver_init test_instance []))
             eq_refl (Some "") [] eq_refl).
Defined.

(* ===================================================================== *)
(** ** Decimal numerals, lines and pieces *)
(* ===================================================================== *)

Section Decimal.

Lemma int_acc_uint_pos (d : Decimal.uint) (acc : positive) :
  int_acc (Z.pos acc) (NilEmpty.string_of_uint d)
  = Z.pos (Pos.of_uint_acc d acc).
Proof.
  revert acc. induction d as [|d IH|d IH|d IH|d IH|d IH|d IH|d IH|d IH|d IH|d IH];
    intros acc; [reflexivity|..];
    cbn [NilEmpty.string_of_uint int_acc Pos.of_uint_acc];
    rewrite <- IH; f_equal;
    try match goal with
        | |- context [digit_value ?c] =>
            let v := eval vm_compute in (digit_value c) in
            change (digit_value c) with v
        end; lia.
Qed.

Lemma int_acc_uint_zero (d : Decimal.uint) :
  int_acc 0 (NilEmpty.string_of_uint d) = Z.of_N (Pos.of_uint d).
Proof.
  induction d as [|d IH|d IH|d IH|d IH|d IH|d IH|d IH|d IH|d IH|d IH];
    [reflexivity | exact IH |..];
    cbn [NilEmpty.string_of_uint int_acc Pos.of_uint Z.of_N];
    rewrite <- int_acc_uint_pos; reflexivity.
Qed.

Lemma all_digits_uint (d : Decimal.uint) :
  all_digits (NilEmpty.string_of_uint d) = true.
Proof. induction d; simpl; auto. Qed.

Lemma str_of_int_pos (p : positive) :
  str_of_int (Z.pos p) = NilEmpty.string_of_uint (Pos.to_uint p) ∧
  str_of_int (Z.pos p) ≠ "".
Proof.
  unfold str_of_int. simpl.
  pose proof (DecimalPos.Unsigned.of_to p) as Hp.
  destruct (Pos.to_uint p) eqn:E; try discriminate; split; easy.
Qed.

(** [int(str(n)) == n], and [str(n)] is a non-empty run of digits. *)
Lemma int_of_digits_str_of_int (n : Z) :
  0 ≤ n →
  int_of_digits (str_of_int n) = n ∧
  all_digits (str_of_int n) = true ∧ str_of_int n ≠ "".
Proof.
  intros Hn. destruct n as [|p|p]; [repeat split; discriminate | | lia].
  destruct (str_of_int_pos p) as [-> Hne]. repeat split.
  - unfold int_of_digits. rewrite int_acc_uint_zero.
    now rewrite DecimalPos.Unsigned.of_to.
  - apply all_digits_uint.
  - exact Hne.
Qed.

End Decimal.

Section SplitJoin.
Variable sep : ascii.

Lemma split_pieces_app_sep (a b : string) :
  split_pieces sep (a ++ String sep b)
  = ((split_pieces sep a).1,
     ((split_pieces sep a).2 ++ split sep b)%list).
Proof.
  unfold split. induction a as [|c a IH]; simpl.
  - rewrite Ascii.eqb_refl. now destruct (split_pieces sep b).
  - rewrite IH. destruct (split_pieces sep a) as [l ls]. simpl.
    now destruct (Ascii.eqb c sep).
Qed.

Lemma split_app_sep (a b : string) :
  split sep (a ++ String sep b) = (split sep a ++ split sep b)%list.
Proof.
  unfold split at 1 2. rewrite split_pieces_app_sep.
  now destruct (split_pieces sep a).
Qed.

Lemma split_no_sep (s : string) :
  contains sep s = false → split sep s = [s].
Proof.
  unfold split. induction s as [|c s IH]; simpl; [reflexivity|].
  intros [Hc Hs]%orb_false_iff. specialize (IH Hs).
  destruct (split_pieces sep s) as [l ls]. rewrite Hc.
  now injection IH as -> ->.
Qed.

Lemma split_join (pieces : list string) :
  pieces ≠ [] → Forall (λ piece, contains sep piece = false) pieces →
  split sep (join sep pieces) = pieces.
Proof.
  induction pieces as [|p pieces IH]; [congruence|]. intros _ Hall.
  apply Forall_cons in Hall as [Hp Hall].
  destruct pieces as [|q pieces]; [now apply split_no_sep|].
  change (join sep (p :: q :: pieces))
    with (p ++ String sep (join sep (q :: pieces))).
  rewrite split_app_sep, split_no_sep by assumption.
  now rewrite IH.
Qed.

End SplitJoin.

Section LoopsCompose.

Lemma scan_last_tid_max (lines : list string) (a : Z) :
  0 ≤ a → scan_last_tid lines a = Z.max a (scan_last_tid lines 0).
Proof.
  revert a. induction lines as [|line lines IH]; intros a Ha.
  - unfold scan_last_tid. simpl. lia.
  - rewrite !scan_last_tid_cons.
    destruct (header_id line) as [k|] eqn:Hk; [|now apply IH].
    apply header_id_nonneg in Hk.
    rewrite (IH (Z.max a k)), (IH (Z.max 0 k)) by lia. lia.
Qed.

Lemma scan_last_tid_app (l1 l2 : list string) :
  scan_last_tid (l1 ++ l2)%list 0
  = Z.max (scan_last_tid l1 0) (scan_last_tid l2 0).
Proof.
  unfold scan_last_tid at 1. rewrite fold_left_app.
  fold (scan_last_tid l1 0).
  fold (scan_last_tid l2 (scan_last_tid l1 0)).
  apply scan_last_tid_max. apply scan_last_tid_bounds.
Qed.

Lemma find_tid_lines_app (iqn : string) (l1 l2 : list string) :
  find_tid_lines iqn (l1 ++ l2)%list
  = match find_tid_lines iqn l1 with
    | Some tid => Some tid
    | None => find_tid_lines iqn l2
    end.
Proof.
  induction l1 as [|line l1 IH]; simpl; [reflexivity|].
  now destruct (Re.search_target_named iqn line).
Qed.

End LoopsCompose.

(** X1. The status text of two dumps, one after the other: the backing
    stores are those of the first followed by those of the second, the
    next target identifier is the larger of the two, and the lookup of an
    IQN answers from the first dump when it has a match there and from the
    second otherwise. *)
Theorem status_parsers_append (a b : string) :
  list_backingstore_path_of (a ++ String newline b)
  = (list_backingstore_path_of a ++ list_backingstore_path_of b)%list ∧
  get_next_tid_of (a ++ String newline b)
  = Z.max (get_next_tid_of a) (get_next_tid_of b) ∧
  ∀ iqn,
    find_tid_of iqn (a ++ String newline b)
    = match find_tid_of iqn a with
      | Some tid => Some tid
      | None => find_tid_of iqn b
      end.
Proof.
  split; [|split].
  - unfold list_backingstore_path_of. rewrite split_app_sep, fold_left_app.
    apply (fold_backing_store_step (split newline b)).
  - unfold get_next_tid_of.
    change (fold_left _ (split newline (a ++ String newline b)) 0)
      with (scan_last_tid (split newline (a ++ String newline b)) 0).
    rewrite split_app_sep, scan_last_tid_app.
    unfold scan_last_tid. lia.
  - intros iqn. unfold find_tid_of.
    now rewrite split_app_sep, find_tid_lines_app.
Qed.

(** X2. The identifier that [_get_next_tid] answers is at least 1 and
    larger than the identifier of every target header of the status text;
    a lookup by [_find_tid] in the same text never answers it. *)
Theorem get_next_tid_fresh {W} (env : Env W) (w w1 : W) (out err : string) :
  utils_execute env cmd_target_show w = (inr (out, err), w1) →
  ∃ next,
    result_of (_get_next_tid env w) = inr next ∧ 1 ≤ next ∧
    (∀ line n, line ∈ split newline out → target_header line n → n < next) ∧
    (∀ iqn tid,
       result_of (_find_tid env iqn w) = inr (Some tid) → tid < next).
Proof.
  intros Hshow. exists (get_next_tid_of out).
  rewrite (get_next_tid_run env _ _ _ _ Hshow).
  split; [reflexivity|].
  unfold get_next_tid_of.
  change (fold_left _ (split newline out) 0)
    with (scan_last_tid (split newline out) 0).
  destruct (scan_last_tid_bounds (split newline out) 0) as (Hge & Hub & _).
  split; [lia|]. split.
  - intros line n Hl Hn. apply header_id_Some in Hn.
    specialize (Hub _ _ Hl Hn). lia.
  - intros iqn tid. rewrite (find_tid_run env _ _ _ _ _ Hshow).
    unfold result_of, find_tid_of. simpl. intros [= Hf].
    apply find_tid_lines_Some in Hf
      as (before & line & after & Hs & (ds & k & rest & Hl & Hne & Hd & ->) & _).
    assert (header_id line = Some (int_of_digits ds)) as Hh.
    { apply header_id_Some. exists ds, (repeat_char space k ++ iqn ++ rest).
      auto. }
    assert (line ∈ split newline out) as Hin.
    { rewrite Hs. apply elem_of_app. right. left. }
    specialize (Hub _ _ Hin Hh). lia.
Qed.

Lemma get_next_tid_fresh_witness :
  ∃ next,
    result_of (_get_next_tid (scripted_env None None) [ok status3])
    = inr next ∧ 1 ≤ next ∧
    (∀ line n, line ∈ split newline status3 → target_header line n →
               n < next) ∧
    (∀ iqn tid,
       result_of (_find_tid (scripted_env None None) iqn [ok status3])
       = inr (Some tid) → tid < next).
Proof.
  apply (get_next_tid_fresh (scripted_env None None) [ok status3] []
           status3 "").
  reflexivity.
Defined.

(* ===================================================================== *)
(** ** Looking up what was created *)
(* ===================================================================== *)

Section FindTidFunction.

Lemma all_digits_no_newline (ds : string) :
  all_digits ds = true → contains newline ds = false.
Proof.
  induction ds as [|c ds IH]; simpl; [reflexivity|].
  intros [Hc Hds]%andb_true_iff. rewrite (IH Hds), orb_false_r.
  apply Ascii.eqb_neq. intros ->. discriminate.
Qed.

Lemma header_name_begins_written (iqn : string) (tid : Z) :
  0 ≤ tid →
  header_name_begins iqn ("Target " ++ str_of_int tid ++ ": " ++ iqn) tid.
Proof.
  intros Htid.
  destruct (int_of_digits_str_of_int tid Htid) as (Hint & Hd & Hne).
  exists (str_of_int tid), 1%nat, "". simpl.
  now rewrite append_nil_r.
Qed.

Lemma find_tid_lines_first (iqn : string) (before after : list string)
    (line : string) (tid : Z) :
  header_name_begins iqn line tid →
  (∀ l m, l ∈ before → ¬ header_name_begins iqn l m) →
  find_tid_lines iqn (before ++ line :: after)%list = Some tid.
Proof.
  intros (ds & k & rest & Hl & Hne & Hd & ->) Hbefore.
  induction before as [|l before IH]; simpl.
  - assert (Re.search_target_named iqn line = Some ds) as ->
      by (apply search_target_named_Some; eauto).
    reflexivity.
  - destruct (Re.search_target_named iqn l) as [ds'|] eqn:Hs.
    + apply search_target_named_Some in Hs as (k' & rest' & Hl' & Hne' & Hd').
      destruct (Hbefore l (int_of_digits ds')); [left|].
      now exists ds', k', rest'.
    + apply IH. intros l' m Hin. apply Hbefore. now right.
Qed.

End FindTidFunction.

(** X3. What [_find_tid] answers: the identifier of the first line of the
    status text that is a target header whose name begins with the IQN,
    and [None] exactly when no line is one. *)
Theorem find_tid_first_header {W} (env : Env W) (iqn : string) (w w1 : W)
    (out err : string) :
  utils_execute env cmd_target_show w = (inr (out, err), w1) →
  ∃ found,
    _find_tid env iqn w = (inr found, w1, [Execute cmd_target_show]) ∧
    match found with
    | Some tid =>
        ∃ before line after,
          split newline out = (before ++ line :: after)%list ∧
          header_name_begins iqn line tid ∧
          ∀ l m, l ∈ before → ¬ header_name_begins iqn l m
    | None =>
        ∀ l m, l ∈ split newline out → ¬ header_name_begins iqn l m
    end.
Proof.
  intros Hshow. exists (find_tid_of iqn out).
  split; [now apply find_tid_run with err|].
  unfold find_tid_of.
  destruct (find_tid_lines iqn (split newline out)) as [tid|] eqn:Hf.
  - now apply find_tid_lines_Some.
  - now apply find_tid_lines_None.
Qed.

Lemma find_tid_first_header_witness :
  ∃ found,
    _find_tid (scripted_env None None) "iqn.test:vm1-dev-vdb" [ok status3]
    = (inr found, [], [Execute cmd_target_show]) ∧
    match found with
    | Some tid =>
        ∃ before line after,
          split newline status3 = (before ++ line :: after)%list ∧
          header_name_begins "iqn.test:vm1-dev-vdb" line tid ∧
          ∀ l m, l ∈ before →
                 ¬ header_name_begins "iqn.test:vm1-dev-vdb" l m
    | None =>
        ∀ l m, l ∈ split newline status3 →
               ¬ header_name_begins "iqn.test:vm1-dev-vdb" l m
    end.
Proof.
  apply (find_tid_first_header (scripted_env None None)
           "iqn.test:vm1-dev-vdb" [ok status3] [] status3 "").
  reflexivity.
Defined.

(** X4. Round trip of an export: when the status text lists the target as
    the daemon writes it, [Target <tid>: <iqn>] with the identifier that
    was handed to the create command, and no earlier header has a name
    that begins with the IQN, [_find_tid] answers that identifier. *)
Theorem find_tid_created {W} (env : Env W) (iqn : string) (tid : Z)
    (before after : list string) (w w1 : W) (err : string) :
  0 ≤ tid →
  contains newline iqn = false →
  Forall (λ l, contains newline l = false) (before ++ after)%list →
  (∀ l m, l ∈ before → ¬ header_name_begins iqn l m) →
  utils_execute env cmd_target_show w
  = (inr (join newline
            (before ++ ("Target " ++ str_of_int tid ++ ": " ++ iqn) :: after),
          err), w1) →
  result_of (_find_tid env iqn w) = inr (Some tid).
Proof.
  intros Htid Hiqn Hall Hbefore Hshow.
  rewrite (find_tid_run env _ _ _ _ _ Hshow).
  unfold result_of, find_tid_of. simpl. f_equal.
  rewrite split_join.
  - apply find_tid_lines_first; [|assumption].
    now apply header_name_begins_written.
  - now destruct before.
  - apply Forall_app in Hall as [Hb Ha].
    apply Forall_app. split; [assumption|]. constructor; [|assumption].
    destruct (int_of_digits_str_of_int tid Htid) as (_ & Hd & _).
    simpl. rewrite contains_app, (all_digits_no_newline _ Hd). simpl.
    exact Hiqn.
Qed.

Lemma find_tid_created_witness :
  result_of (_find_tid (scripted_env None None) "iqn.test:vm1-dev-vdb"
               [ok status2]) = inr (Some 1).
Proof.
  apply (find_tid_created (scripted_env None None) "iqn.test:vm1-dev-vdb" 1
           []
           ["    LUN: 0"; "        Backing store path: None"; "    LUN: 1";
            "        Backing store path: /dev/x"]
           [ok status2] [] "").
  - lia.
  - reflexivity.
  - repeat constructor.
  - intros l m Hl. now apply elem_of_nil in Hl.
  - reflexivity.
Defined.

(* ===================================================================== *)
(** ** The mount device and the shape of the IQN *)
(* ===================================================================== *)

Section MountDevice.

Lemma after_last_Some (sep : ascii) (s t : string) :
  after_last sep s = Some t →
  contains sep t = false ∧ ∃ head, s = head ++ String sep t.
Proof.
  revert t. induction s as [|c s IH]; intros t; simpl; [discriminate|].
  destruct (after_last sep s) as [t'|] eqn:Ha.
  - intros [= <-]. destruct (IH t' eq_refl) as (Ht & head & ->).
    split; [assumption|]. now exists (String c head).
  - destruct (Ascii.eqb_spec c sep) as [->|]; [|discriminate].
    intros [= <-]. split; [|now exists ""].
    clear IH. induction s as [|d s IHs]; simpl in *; [reflexivity|].
    destruct (after_last sep s); [discriminate|].
    destruct (Ascii.eqb d sep); [discriminate|]. now apply IHs.
Qed.

Lemma after_last_None (sep : ascii) (s : string) :
  after_last sep s = None ↔ contains sep s = false.
Proof.
  induction s as [|c s IH]; simpl; [easy|].
  destruct (after_last sep s) as [t|].
  - split; [discriminate|]. intros [_ Hs]%orb_false_iff.
    now apply IH in Hs.
  - destruct (Ascii.eqb c sep); simpl; [easy|]. tauto.
Qed.

Lemma volume_driver_method_dispatch_first {W} (env : Env W) (self : driver)
    (method_name : string) (ci : connection_info) (mount_device : string)
    (w : W) :
  ∃ rest,
    events_of (_volume_driver_method env self method_name ci mount_device w)
    = Dispatch method_name (driver_volume_type ci) mount_device :: rest.
Proof.
  unfold _volume_driver_method, bind, log, raise, call, events_of. simpl.
  destruct (driver_volume_type ci) as [t|]; simpl; [|eauto].
  destruct (volume_drivers self !! t) as [cls|]; simpl; [|eauto].
  destruct (driver_method env cls method_name ci mount_device w). eauto.
Qed.

End MountDevice.

(** X5. The mount device that [detach_volume] hands to the dispatcher is
    the last component of the mountpoint: it holds no path separator, it is
    the whole mountpoint when that has none, and otherwise the mountpoint
    is some head, a separator, and the mount device. *)
Theorem detach_volume_mount_device {W} (env : Env W) (conf : CONF.t)
    (self : driver) (ci : connection_info) (inst : instance)
    (mountpoint : string) (w : W) :
  ∃ mount_device,
    Dispatch "disconnect_volume" (driver_volume_type ci) mount_device
    ∈ events_of (detach_volume env conf self ci inst mountpoint w) ∧
    contains slash mount_device = false ∧
    (contains slash mountpoint = false → mount_device = mountpoint) ∧
    (contains slash mountpoint = true →
     ∃ head, mountpoint = head ++ String slash mount_device).
Proof.
  exists (rpartition_tail slash mountpoint). split; [|split; [|split]].
  - unfold detach_volume. rewrite events_try_finally.
    apply elem_of_app. right.
    match goal with
    | |- context [_volume_driver_method env self _ ci _ ?w'] =>
        destruct (volume_driver_method_dispatch_first env self
                    "disconnect_volume" ci
                    (rpartition_tail slash mountpoint) w') as [rest ->]
    end.
    left.
  - unfold rpartition_tail.
    destruct (after_last slash mountpoint) as [t|] eqn:Ha.
    + now apply after_last_Some in Ha.
    + now apply after_last_None.
  - intros Hno. unfold rpartition_tail.
    apply after_last_None in Hno. now rewrite Hno.
  - intros Hyes. unfold rpartition_tail.
    destruct (after_last slash mountpoint) as [t|] eqn:Ha.
    + now apply after_last_Some in Ha.
    + apply after_last_None in Ha. congruence.
Qed.

Section IqnShape.

Lemma replace_no_sep (a b : ascii) (s : string) :
  a ≠ b → contains a (replace a b s) = false.
Proof.
  intros Hab. induction s as [|c s IH]; simpl; [reflexivity|].
  rewrite IH, orb_false_r.
  destruct (Ascii.eqb_spec c a) as [->|Hc]; now apply Ascii.eqb_neq.
Qed.

Lemma replace_app (a b : ascii) (x y : string) :
  replace a b (x ++ y) = replace a b x ++ replace a b y.
Proof. induction x as [|c x IH]; simpl; [reflexivity | now rewrite IH]. Qed.

Lemma lstrip_contains (c d : ascii) (s : string) :
  contains c s = false → contains c (lstrip d s) = false.
Proof.
  induction s as [|e s IH]; simpl; [reflexivity|].
  intros H. destruct (Ascii.eqb e d); [|exact H].
  apply orb_false_iff in H as [_ H]. now apply IH.
Qed.

Lemma rstrip_contains (c d : ascii) (s : string) :
  contains c s = false → contains c (rstrip d s) = false.
Proof.
  induction s as [|e s IH]; simpl; [reflexivity|].
  intros [He Hs]%orb_false_iff. specialize (IH Hs).
  destruct (rstrip d s) as [|f r].
  - destruct (Ascii.eqb e d); simpl; [reflexivity|]. now rewrite He.
  - simpl in *. now rewrite He.
Qed.

Lemma lstrip_app_char (c : ascii) (x : string) :
  lstrip c (x ++ String c "")
  = match lstrip c x with
    | EmptyString => EmptyString
    | y => y ++ String c ""
    end.
Proof.
  induction x as [|d x IH]; simpl.
  - now rewrite Ascii.eqb_refl.
  - destruct (Ascii.eqb d c); [exact IH | reflexivity].
Qed.

Lemma strip_app_char (c : ascii) (x : string) :
  strip c (x ++ String c "") = strip c x.
Proof.
  unfold strip. rewrite lstrip_app_char.
  destruct (lstrip c x) as [|d y]; [reflexivity|].
  apply (rstrip_app_repeat c (String d y) 1).
Qed.

End IqnShape.

(** X6. The IQN of an export holds a path separator only when the prefix or
    the instance name does, whatever the mountpoint; and one more separator
    at the head or at the end of the mountpoint does not change the IQN. *)
Theorem get_iqn_separators (prefix instance_name mountpoint : string) :
  contains slash (_get_iqn prefix instance_name mountpoint)
  = contains slash prefix || contains slash instance_name ∧
  _get_iqn prefix instance_name (String slash mountpoint)
  = _get_iqn prefix instance_name mountpoint ∧
  _get_iqn prefix instance_name (mountpoint ++ String slash "")
  = _get_iqn prefix instance_name mountpoint.
Proof.
  unfold _get_iqn. split; [|split].
  - rewrite !contains_app. simpl.
    unfold strip. rewrite rstrip_contains.
    + now rewrite !orb_false_r.
    + apply lstrip_contains. now apply replace_no_sep.
  - reflexivity.
  - rewrite replace_app. simpl.
    change (String hyphen "") with (String hyphen EmptyString).
    now rewrite strip_app_char.
Qed.

(* ===================================================================== *)
(** ** Attach: what it issues and what it leaves *)
(* ===================================================================== *)

Section AttachTraces.
Context {W : Type} (env : Env W) (conf : CONF.t).

Lemma attach_volume_keeps (self : driver) (ci : connection_info)
    (inst : instance) (mountpoint : string) :
  emits_only keeps_exports (attach_volume env conf self ci inst mountpoint).
Proof.
  unfold attach_volume, _get_baremetal_node_by_instance_uuid,
    _volume_driver_method, _get_next_tid, _show_tgtadm,
    _create_iscsi_export_tgtadm, _allow_iscsi_tgtadm, execute.
  repeat first
    [ apply emits_only_bind | apply emits_only_ret | apply emits_only_raise
    | apply emits_only_call; reflexivity
    | apply emits_only_log; reflexivity
    | match goal with |- ∀ _, _ => intro end
    | case_match ].
Qed.

End AttachTraces.

(** X7. [attach_volume] never takes anything back: no run of it issues a
    delete command or asks for [disconnect_volume], so a failure after the
    device was connected or the target was created leaves both in place. *)
Theorem attach_volume_no_undo {W} (env : Env W) (conf : CONF.t)
    (self : driver) (ci : connection_info) (inst : instance)
    (mountpoint : string) (w : W) :
  count is_undo_event
    (events_of (attach_volume env conf self ci inst mountpoint w)) = O.
Proof.
  apply count_none. apply (attach_volume_keeps env conf).
Qed.

Example delete_commands_are_undo :
  is_undo_event (Execute (cmd_logicalunit_delete 3)) = true ∧
  is_undo_event (Execute (cmd_target_delete 3)) = true ∧
  is_undo_event (Dispatch "disconnect_volume" None "vdb") = true.
Proof. repeat split. Qed.

(** X8. A run of [attach_volume] in which every step succeeds: the device
    is connected through the sub-driver, the daemon is asked once for its
    status, and the target, its logical unit and its access list are set
    up in this order, all three under the identifier read off that status,
    with the IQN of the instance and mountpoint and the device path that
    the sub-driver left in the descriptor. *)
Theorem attach_volume_success {W} (env : Env W) (conf : CONF.t)
    (self : driver) (ci ci' : connection_info) (inst : instance)
    (mountpoint : string) (w w1 w2 w3 w4 w5 w6 w7 : W) (node : bm_node)
    (pxe_ip : option bm_pxe_ip) (driver_type cls path out err : string)
    (r5 r6 r7 : string * string) :
  let mount_device := rpartition_tail slash mountpoint in
  let iqn := _get_iqn (CONF.iscsi_iqn_prefix conf) (instance_name inst)
               mountpoint in
  let tid := get_next_tid_of out in
  bm_node_get_by_instance_uuid env (instance_uuid inst) w = (inr node, w1) →
  bm_pxe_ip_get_by_bm_node_id env (node_id node) w1 = (inr pxe_ip, w2) →
  (pxe_ip = None → CONF.use_unsafe_iscsi conf = true) →
  driver_volume_type ci = Some driver_type →
  volume_drivers self !! driver_type = Some cls →
  driver_method env cls "connect_volume" ci mount_device w2 = (inr ci', w3) →
  connection_data ci' !! "device_path" = Some path →
  utils_execute env cmd_target_show w3 = (inr (out, err), w4) →
  utils_execute env (cmd_target_new tid iqn) w4 = (inr r5, w5) →
  utils_execute env (cmd_logicalunit_new tid path) w5 = (inr r6, w6) →
  utils_execute env (cmd_target_bind tid (bind_address pxe_ip)) w6
  = (inr r7, w7) →
  attach_volume env conf self ci inst mountpoint w
  = (inr tt, w7,
     [NodeLookup (instance_uuid inst); PxeIpLookup (node_id node);
      Dispatch "connect_volume" (Some driver_type) mount_device;
      DriverCall cls "connect_volume" mount_device;
      Execute cmd_target_show;
      Execute (cmd_target_new tid iqn);
      Execute (cmd_logicalunit_new tid path);
      Execute (cmd_target_bind tid (bind_address pxe_ip))]).
Proof.
  intros mount_device iqn tid Hnode Hpxe Hpolicy Htype Hcls Hconnect Hpath
    Hshow Hnew Hlun Hbind.
  unfold attach_volume, _get_baremetal_node_by_instance_uuid,
    _volume_driver_method, _get_next_tid, _show_tgtadm,
    _create_iscsi_export_tgtadm, _allow_iscsi_tgtadm, execute,
    bind, call, ret, raise, log.
  fold mount_device iqn. rewrite Hnode. simpl. rewrite Hpxe. simpl.
  destruct pxe_ip as [ip|]; simpl in *.
  - rewrite Htype, Hcls. simpl. fold mount_device. rewrite Hconnect. simpl.
    rewrite Hpath. simpl. rewrite Hshow. simpl. fold tid. fold iqn.
    rewrite Hnew. simpl. rewrite Hlun. simpl. rewrite Hbind. reflexivity.
  - rewrite (Hpolicy eq_refl). simpl.
    rewrite Htype, Hcls. simpl. fold mount_device. rewrite Hconnect. simpl.
    rewrite Hpath. simpl. rewrite Hshow. simpl. fold tid. fold iqn.
    rewrite Hnew. simpl. rewrite Hlun. simpl. rewrite Hbind. reflexivity.
Qed.

Lemma attach_volume_success_witness :
  attach_volume (scripted_env (Some {| pxe_address := "10.1.0.5" |}) None)
    (test_conf false) (LibvirtVolumeDriver_init (test_conf false))
    test_connection test_instance "/dev/vdb"
    [ok status1; ok ""; ok ""; ok ""]
  = (inr tt, [],
     [NodeLookup "uuid-1"; PxeIpLookup 1;
      Dispatch "connect_volume" (Some "iscsi") "vdb";
      DriverCall "nova.virt.libvirt.volume.LibvirtISCSIVolumeDriver"
        "connect_volume" "vdb";
      Execute cmd_target_show;
      Execute (cmd_target_new 8 "iqn.test:vm1-dev-vdb");
      Execute (cmd_logicalunit_new 8 "/dev/sdb");
      Execute (cmd_target_bind 8 "10.1.0.5")]).
Proof.
  apply (attach_volume_success
           (scripted_env (Some {| pxe_address := "10.1.0.5" |}) None)
           (test_conf false) (LibvirtVolumeDriver_init (test_conf false))
           test_connection test_connection test_instance "/dev/vdb"
           [ok status1; ok ""; ok ""; ok ""]
           [ok status1; ok ""; ok ""; ok ""]
           [ok status1; ok ""; ok ""; ok ""]
           [ok status1; ok ""; ok ""; ok ""]
           [ok ""; ok ""; ok ""] [ok ""; ok ""] [ok ""] []
           {| node_id := 1 |} (Some {| pxe_address := "10.1.0.5" |})
           "iscsi" "nova.virt.libvirt.volume.LibvirtISCSIVolumeDriver"
           "/dev/sdb" status1 "" ("", "") ("", "") ("", ""));
    (reflexivity || discriminate).
Defined.

(** X9. When the sub-driver has connected the device and the descriptor it
    leaves has no [device_path], [attach_volume] raises the key error at
    once: no command reaches the daemon, and the device stays connected. *)
Theorem attach_volume_missing_device_path {W} (env : Env W) (conf : CONF.t)
    (self : driver) (ci ci' : connection_info) (inst : instance)
    (mountpoint : string) (w w1 w2 w3 : W) (node : bm_node)
    (pxe_ip : option bm_pxe_ip) (driver_type cls : string) :
  let mount_device := rpartition_tail slash mountpoint in
  bm_node_get_by_instance_uuid env (instance_uuid inst) w = (inr node, w1) →
  bm_pxe_ip_get_by_bm_node_id env (node_id node) w1 = (inr pxe_ip, w2) →
  (pxe_ip = None → CONF.use_unsafe_iscsi conf = true) →
  driver_volume_type ci = Some driver_type →
  volume_drivers self !! driver_type = Some cls →
  driver_method env cls "connect_volume" ci mount_device w2 = (inr ci', w3) →
  connection_data ci' !! "device_path" = None →
  attach_volume env conf self ci inst mountpoint w
  = (inl (KeyError "device_path"), w3,
     [NodeLookup (instance_uuid inst); PxeIpLookup (node_id node);
      Dispatch "connect_volume" (Some driver_type) mount_device;
      DriverCall cls "connect_volume" mount_device]).
Proof.
  intros mount_device Hnode Hpxe Hpolicy Htype Hcls Hconnect Hpath.
  unfold attach_volume, _get_baremetal_node_by_instance_uuid,
    _volume_driver_method, bind, call, ret, raise, log.
  fold mount_device. rewrite Hnode. simpl. rewrite Hpxe. simpl.
  destruct pxe_ip as [ip|]; simpl in *; [|rewrite (Hpolicy eq_refl); simpl];
    rewrite Htype, Hcls; simpl; fold mount_device; rewrite Hconnect; simpl;
    rewrite Hpath; reflexivity.
Qed.

Lemma attach_volume_missing_device_path_witness :
  attach_volume (scripted_env None None) (test_conf true)
    (LibvirtVolumeDriver_init (test_conf true)) bare_connection
    test_instance "/dev/vdb" [ok status1]
  = (inl (KeyError "device_path"), [ok status1],
     [NodeLookup "uuid-1"; PxeIpLookup 1;
      Dispatch "connect_volume" (Some "iscsi") "vdb";
      DriverCall "nova.virt.libvirt.volume.LibvirtISCSIVolumeDriver"
        "connect_volume" "vdb"]).
Proof.
  apply (attach_volume_missing_device_path (scripted_env None None)
           (test_conf true) (LibvirtVolumeDriver_init (test_conf true))
           bare_connection bare_connection test_instance "/dev/vdb"
           [ok status1] [ok status1] [ok status1] [ok status1]
           {| node_id := 1 |} None "iscsi"
           "nova.virt.libvirt.volume.LibvirtISCSIVolumeDriver");
    reflexivity.
Defined.

(* ===================================================================== *)
(** ** Detach and deletion: outcomes *)
(* ===================================================================== *)

(** X10. How [detach_volume] ends when the lookup finds the target, and
    when the status command itself fails: the disconnect runs on the world
    that the deletion (or the failed status command) left, an exception of
    the disconnect is the outcome of the detach, and otherwise the outcome
    is that of the deletion (or the failure of the status command). *)
Theorem detach_volume_outcome {W} (env : Env W) (conf : CONF.t)
    (self : driver) (ci : connection_info) (inst : instance)
    (mountpoint : string) (w w1 : W) :
  let iqn := _get_iqn (CONF.iscsi_iqn_prefix conf) (instance_name inst)
               mountpoint in
  let disconnect :=
    _volume_driver_method env self "disconnect_volume" ci
      (rpartition_tail slash mountpoint) in
  let run := detach_volume env conf self ci inst mountpoint w in
  (∀ out err tid,
     utils_execute env cmd_target_show w = (inr (out, err), w1) →
     find_tid_of iqn out = Some tid →
     let deletion := _delete_iscsi_export_tgtadm env tid w1 in
     let final := disconnect (world_of deletion) in
     run = (match result_of final with
            | inl e => inl e
            | inr _ => result_of deletion
            end,
            world_of final,
            (Execute cmd_target_show :: events_of deletion
             ++ events_of final)%list)) ∧
  (∀ e,
     utils_execute env cmd_target_show w = (inl e, w1) →
     let final := disconnect w1 in
     run = (match result_of final with
            | inl e' => inl e'
            | inr _ => inl e
            end,
            world_of final,
            Execute cmd_target_show :: events_of final)).
Proof.
  intros iqn disconnect run. subst run disconnect.
  unfold detach_volume. fold iqn. split.
  - intros out err tid Hshow Hfind.
    unfold try_finally, _find_tid, _show_tgtadm, execute, bind, call, ret,
      result_of, world_of, events_of.
    rewrite Hshow. simpl. rewrite Hfind.
    destruct (_delete_iscsi_export_tgtadm env tid w1) as [[rd wd] evd]. simpl.
    now destruct (_volume_driver_method env self "disconnect_volume" ci
                    (rpartition_tail slash mountpoint) wd) as [[rf wf] evf].
  - intros e Hshow.
    unfold try_finally, _find_tid, _show_tgtadm, execute, bind, call, ret,
      result_of, world_of, events_of.
    rewrite Hshow. simpl.
    now destruct (_volume_driver_method env self "disconnect_volume" ci
                    (rpartition_tail slash mountpoint) w1) as [[rf wf] evf].
Qed.

Lemma detach_volume_outcome_witness :
  detach_volume (scripted_env None None) (test_conf false)
    (LibvirtVolumeDriver_init (test_conf false)) test_connection
    test_instance "/dev/vdb"
    [ok status2; ok ""; ok ""; ok "Target 1: iqn.test:vm1-dev-vdb"]
  = (inl (NovaException "baremetal driver was unable to delete tid 1"), [],
     [Execute cmd_target_show;
      Execute (cmd_logicalunit_delete 1); Execute (cmd_target_delete 1);
      Execute (cmd_target_show_tid 1);
      Dispatch "disconnect_volume" (Some "iscsi") "vdb";
      DriverCall "nova.virt.libvirt.volume.LibvirtISCSIVolumeDriver"
        "disconnect_volume" "vdb"]) ∧
  detach_volume (scripted_env None None) (test_conf false)
    VolumeDriver_init test_connection test_instance "/dev/vdb" [failed 107]
  = (inl (VolumeDriverNotFound (Some "iscsi")), [],
     [Execute cmd_target_show;
      Dispatch "disconnect_volume" (Some "iscsi") "vdb"]).
Proof.
  split.
  - apply (proj1 (detach_volume_outcome (scripted_env None None)
                    (test_conf false)
                    (LibvirtVolumeDriver_init (test_conf false))
                    test_connection test_instance "/dev/vdb"
                    [ok status2; ok ""; ok "";
                     ok "Target 1: iqn.test:vm1-dev-vdb"]
                    [ok ""; ok ""; ok "Target 1: iqn.test:vm1-dev-vdb"])
             status2 "" 1); reflexivity.
  - apply (proj2 (detach_volume_outcome (scripted_env None None)
                    (test_conf false) VolumeDriver_init
                    test_connection test_instance "/dev/vdb"
                    [failed 107] [])
             (ProcessExecutionError 107 "" "tgtadm: failed")); reflexivity.
Defined.

(** X11. [_delete_iscsi_export_tgtadm] issues nothing but the delete of the
    logical unit, the delete of the target and the show of that target, in
    this order and each at most once; and an exception of a delete that is
    not an execution error is not dropped: it ends the run before the next
    command. *)
Theorem delete_iscsi_export_commands {W} (env : Env W) (tid : Z) (w : W) :
  let run := _delete_iscsi_export_tgtadm env tid w in
  events_of run `prefix_of`
    [Execute (cmd_logicalunit_delete tid); Execute (cmd_target_delete tid);
     Execute (cmd_target_show_tid tid)] ∧
  (∀ e w1,
     utils_execute env (cmd_logicalunit_delete tid) w = (inl e, w1) →
     is_ProcessExecutionError e = false →
     run = (inl e, w1, [Execute (cmd_logicalunit_delete tid)])) ∧
  (∀ r1 w1 e w2,
     utils_execute env (cmd_logicalunit_delete tid) w = (r1, w1) →
     returned_or_failed r1 →
     utils_execute env (cmd_target_delete tid) w1 = (inl e, w2) →
     is_ProcessExecutionError e = false →
     run = (inl e, w2,
            [Execute (cmd_logicalunit_delete tid);
             Execute (cmd_target_delete tid)])).
Proof.
  intros run. subst run.
  unfold _delete_iscsi_export_tgtadm, try_except_ProcessExecutionError,
    execute, bind, call, ret, raise, events_of.
  split; [|split].
  - repeat (case_match; simplify_eq/=);
      match goal with
      | |- ?l `prefix_of` _ =>
          first [ now exists [] | eexists [_] ; reflexivity
                | eexists [_; _]; reflexivity ]
      end.
  - intros e w1 H1 He. rewrite H1. simpl. now rewrite He.
  - intros r1 w1 e w2 H1 Hr1 H2 He. rewrite H1. simpl.
    destruct r1 as [e1|a1]; simpl in *; [rewrite Hr1; simpl|];
      rewrite H2; simpl; now rewrite He.
Qed.

Lemma delete_iscsi_export_commands_witness :
  _delete_iscsi_export_tgtadm (scripted_env None None) 3
    [inl (ExternalError "OSError: tgtadm not found")]
  = (inl (ExternalError "OSError: tgtadm not found"), [],
     [Execute (cmd_logicalunit_delete 3)]).
Proof.
  apply (proj1 (proj2 (delete_iscsi_export_commands
                         (scripted_env None None) 3
                         [inl (ExternalError "OSError: tgtadm not found")])));
    reflexivity.
Defined.

(* ===================================================================== *)
(** ** The registry of sub-drivers and the block devices *)
(* ===================================================================== *)

Section Registry.


Lemma partition_no_sep (sep : ascii) (s : string) :
  contains sep s = false → partition sep s = (s, "").
Proof.
  induction s as [|c s IH]; simpl; [reflexivity|].
  intros [Hc Hs]%orb_false_iff. now rewrite Hc, (IH Hs).
Qed.






End Registry.



Section BlockDevices.

Lemma backing_stores_paths (lines vs : list string) :
  backing_stores lines vs →
  (length vs ≤ length lines)%nat ∧
  ∀ v, v ∈ vs →
       contains slash v = true ∧
       ∃ line, line ∈ lines ∧ backing_store_value line v.
Proof.
  induction 1 as [|line v lines vs Hv Hc _ [IHl IHv]
                  |line v lines vs Hv Hc _ [IHl IHv]
                  |line lines vs Hno _ [IHl IHv]]; simpl.
  - split; [lia|]. intros v Hin. now apply elem_of_nil in Hin.
  - split; [lia|]. intros v' [->|Hin]%elem_of_cons.
    + split; [assumption|]. exists line. split; [left | assumption].
    + destruct (IHv v' Hin) as (Hc' & l & Hl & Hlv).
      split; [assumption|]. exists l. split; [now right | assumption].
  - split; [lia|]. intros v' Hin.
    destruct (IHv v' Hin) as (Hc' & l & Hl & Hlv).
    split; [assumption|]. exists l. split; [now right | assumption].
  - split; [lia|]. intros v' Hin.
    destruct (IHv v' Hin) as (Hc' & l & Hl & Hlv).
    split; [assumption|]. exists l. split; [now right | assumption].
Qed.

End BlockDevices.

(** X13. Every entry of the list of [get_all_block_devices] holds a path
    separator, holds no newline, and is the value of a backing-store line
    of the status text; the list is no longer than the text has lines. *)
Theorem get_all_block_devices_paths {W} (env : Env W) (self : driver)
    (w w1 : W) (out err : string) :
  utils_execute env cmd_target_show w = (inr (out, err), w1) →
  ∃ vs,
    get_all_block_devices env self w = (inr vs, w1, [Execute cmd_target_show])
    ∧ (length vs ≤ length (split newline out))%nat
    ∧ ∀ v, v ∈ vs →
           contains slash v = true ∧ contains newline v = false ∧
           ∃ line, line ∈ split newline out ∧ backing_store_value line v.
Proof.
  intros Hshow. exists (list_backingstore_path_of out).
  split; [now apply get_all_block_devices_run with err|].
  destruct (backing_stores_paths (split newline out)
              (list_backingstore_path_of out)) as [Hlen Hvs];
    [now apply list_backingstore_path_of_spec|].
  split; [assumption|]. intros v Hv.
  destruct (Hvs v Hv) as (Hc & line & Hl & Hlv).
  split; [assumption|]. split; [|eauto].
  destruct (split_pieces_join newline out) as [_ Hall].
  rewrite Forall_forall in Hall. specialize (Hall line Hl).
  destruct Hlv as (pre & -> & _).
  rewrite !contains_app in Hall.
  apply orb_false_iff in Hall as [_ Hall].
  now apply orb_false_iff in Hall as [_ Hall].
Qed.

Lemma get_all_block_devices_paths_witness :
  ∃ vs,
    get_all_block_devices (scripted_env None None) VolumeDriver_init
      [ok status2] = (inr vs, [], [Execute cmd_target_show])
    ∧ (length vs ≤ length (split newline status2))%nat
    ∧ ∀ v, v ∈ vs →
           contains slash v = true ∧ contains newline v = false ∧
           ∃ line, line ∈ split newline status2 ∧
                   backing_store_value line v.
Proof.
  apply (get_all_block_devices_paths (scripted_env None None)
           VolumeDriver_init [ok status2] [] status2 "").
  reflexivity.
Defined.

(* ===================================================================== *)
(** ** Attach then detach, and successive connector calls *)
(* ===================================================================== *)

(** X14. What attach creates, detach deletes: when the status text lists
    the target as the daemon writes it, under the identifier [tid] and the
    IQN of the instance and mountpoint, and no earlier header has a name
    that begins with that IQN, [detach_volume] runs the deletion of [tid]
    and then the disconnect. *)
Theorem detach_volume_deletes_created {W} (env : Env W) (conf : CONF.t)
    (self : driver) (ci : connection_info) (inst : instance)
    (mountpoint : string) (tid : Z) (before after : list string)
    (w w1 : W) (err : string) :
  let iqn := _get_iqn (CONF.iscsi_iqn_prefix conf) (instance_name inst)
               mountpoint in
  0 ≤ tid →
  contains newline iqn = false →
  Forall (λ l, contains newline l = false) (before ++ after)%list →
  (∀ l m, l ∈ before → ¬ header_name_begins iqn l m) →
  utils_execute env cmd_target_show w
  = (inr (join newline
            (before ++ ("Target " ++ str_of_int tid ++ ": " ++ iqn)%string
             :: after)%list,
          err), w1) →
  let deletion := _delete_iscsi_export_tgtadm env tid w1 in
  let final := _volume_driver_method env self "disconnect_volume" ci
                 (rpartition_tail slash mountpoint) (world_of deletion) in
  detach_volume env conf self ci inst mountpoint w
  = (match result_of final with
     | inl e => inl e
     | inr _ => result_of deletion
     end,
     world_of final,
     (Execute cmd_target_show :: events_of deletion
      ++ events_of final)%list).
Proof.
  intros iqn Htid Hiqn Hall Hbefore Hshow deletion final.
  pose proof (find_tid_run env iqn _ _ _ _ Hshow) as Hfind.
  assert (find_tid_of iqn
            (join newline
               (before ++ ("Target " ++ str_of_int tid ++ ": " ++ iqn)%string
                :: after)%list) = Some tid) as Htid'.
  { unfold find_tid_of. rewrite split_join.
    - apply find_tid_lines_first; [|assumption].
      now apply header_name_begins_written.
    - now destruct before.
    - apply Forall_app in Hall as [Hb Ha].
      apply Forall_app. split; [assumption|]. constructor; [|assumption].
      destruct (int_of_digits_str_of_int tid Htid) as (_ & Hd & _).
      simpl. rewrite contains_app, (all_digits_no_newline _ Hd). simpl.
      exact Hiqn. }
  subst deletion final.
  unfold detach_volume. fold iqn.
  unfold try_finally, bind at 1. rewrite Hfind, Htid'.
  unfold result_of, world_of, events_of.
  destruct (_delete_iscsi_export_tgtadm env tid w1) as [[rd wd] evd]. simpl.
  now destruct (_volume_driver_method env self "disconnect_volume" ci
                  (rpartition_tail slash mountpoint) wd) as [[rf wf] evf].
Qed.

Lemma detach_volume_deletes_created_witness :
  detach_volume (scripted_env None None) (test_conf false)
    (LibvirtVolumeDriver_init (test_conf false)) test_connection
    test_instance "/dev/vdb"
    [ok status4; ok ""; ok ""; failed 22]
  = (inr tt, [],
     [Execute cmd_target_show;
      Execute (cmd_logicalunit_delete 8); Execute (cmd_target_delete 8);
      Execute (cmd_target_show_tid 8);
      Dispatch "disconnect_volume" (Some "iscsi") "vdb";
      DriverCall "nova.virt.libvirt.volume.LibvirtISCSIVolumeDriver"
        "disconnect_volume" "vdb"]).
Proof.
  apply (detach_volume_deletes_created (scripted_env None None)
           (test_conf false) (LibvirtVolumeDriver_init (test_conf false))
           test_connection test_instance "/dev/vdb" 8
           ["Target 1: iqn.test:vm9-dev-vdb"] []
           [ok status4; ok ""; ok ""; failed 22]
           [ok ""; ok ""; failed 22] "").
  - lia.
  - reflexivity.
  - repeat constructor.
  - intros l m [->|Hl]%elem_of_cons; [|now apply elem_of_nil in Hl].
    intros (ds & k & rest & Hl & Hne & Hd & _).
    assert (Re.search_target_named "iqn.test:vm1-dev-vdb"
              "Target 1: iqn.test:vm9-dev-vdb" = Some ds) as Hs
      by (apply search_target_named_Some; eauto).
    vm_compute in Hs. discriminate.
  - reflexivity.
Defined.

Section ConnectorCalls.
Context {W : Type} (env : Env W) (conf : CONF.t).

Lemma get_volume_connector_cached (self : driver) (inst : instance) (w : W) :
  truthy (_initiator self) = true →
  ∃ c, get_volume_connector env conf self inst w = (inr (self, c), w, []) ∧
       c !! "initiator" = Some (_initiator self).
Proof.
  intros Hc. eexists. split.
  - unfold get_volume_connector, bind, ret. rewrite Hc. reflexivity.
  - reflexivity.
Qed.

Lemma get_volume_connectors_cached (self : driver) (insts : list instance)
    (w : W) :
  truthy (_initiator self) = true →
  ∃ cs, get_volume_connectors env conf self insts w = (inr (self, cs), w, [])
        ∧ length cs = length insts
        ∧ ∀ c, c ∈ cs → c !! "initiator" = Some (_initiator self).
Proof.
  intros Hc. induction insts as [|inst insts (cs & Hrun & Hlen & Hcs)].
  - exists []. repeat split. intros c Hin. now apply elem_of_nil in Hin.
  - destruct (get_volume_connector_cached self inst w Hc) as (c & Hone & Hi).
    exists (c :: cs). split; [|split].
    + simpl. unfold bind at 1. rewrite Hone. simpl.
      unfold bind at 1. now rewrite Hrun.
    + simpl. now rewrite Hlen.
    + intros c' [->|Hin]%elem_of_cons; auto.
Qed.

End ConnectorCalls.

(** X15. On a driver with no initiator cached, when the discovery answers
    a non-empty name, any number of successive calls of
    [get_volume_connector] runs the discovery exactly once, in the first
    call, logs nothing, and every connector carries that name. *)
Theorem get_volume_connectors_discover_once {W} (env : Env W)
    (conf : CONF.t) (self : driver) (inst : instance)
    (insts : list instance) (w w1 : W) (name : string) :
  truthy (_initiator self) = false →
  truthy (Some name) = true →
  get_iscsi_initiator env w = (inr (Some name), w1) →
  ∃ cs,
    get_volume_connectors env conf self (inst :: insts) w
    = (inr ({| _initiator := Some name;
               volume_drivers := volume_drivers self |}, cs),
       w1, [InitiatorDiscovery]) ∧
    length cs = S (length insts) ∧
    ∀ c, c ∈ cs → c !! "initiator" = Some (Some name).
Proof.
  intros Hempty Hname Hfound.
  destruct name as [|ch rest]; [discriminate|].
  set (self' := {| _initiator := Some (String ch rest);
                   volume_drivers := volume_drivers self |}).
  destruct (get_volume_connectors_cached env conf self' insts w1 Hname)
    as (cs & Hrest & Hlen & Hcs).
  eexists (_ :: cs). split; [|split].
  - simpl. unfold bind at 1.
    unfold get_volume_connector, bind at 1 2 3, call, ret at 1 2 3.
    rewrite Hempty, Hfound. simpl.
    fold self'. unfold bind at 1. rewrite Hrest. reflexivity.
  - simpl. now rewrite Hlen.
  - intros c [->|Hin]%elem_of_cons; [reflexivity | now apply Hcs].
Qed.

Lemma get_volume_connectors_discover_once_witness :
  ∃ cs,
    get_volume_connectors (scripted_env None (Some "iqn.1993-08.debian:01"))
      (test_conf false) VolumeDriver_init
      [test_instance; test_instance; test_instance] []
    = (inr ({| _initiator := Some "iqn.1993-08.debian:01";
               volume_drivers := ∅ |}, cs),
       [], [InitiatorDiscovery]) ∧
    length cs = 3%nat ∧
    ∀ c, c ∈ cs → c !! "initiator" = Some (Some "iqn.1993-08.debian:01").
Proof.
  apply (get_volume_connectors_discover_once
           (scripted_env None (Some "iqn.1993-08.debian:01"))
           (test_conf false) VolumeDriver_init test_instance
           [test_instance; test_instance] [] [] "iqn.1993-08.debian:01");
    reflexivity.
Defined.
